(** * A cooperative scheduler based on generators

    Shallow embedding of [device/flash/lib/scheduler.py] and proofs about
    its flag protocol, its per-pass resume loop and its failure policy.

    Python objects are modelled by an object store: a [Task] is a record
    kept in the list [tasks] of the [World], and a task handle is its index
    in that list (object identity).  The two lists [running] and [waiting]
    of the [Scheduler] hold handles, in list order, duplicates included.
    Python integers are unbounded, hence [Z] for flags and masks.

    The logging module [device/flash/lib/ulog.py] is embedded in
    [Module Ulog], after the definitions for the scheduler.  *)

From Stdlib Require Import ZArith Lia.
From stdpp Require Import list strings.
From stdpp Require Import gmap pretty.

Set Warnings "-register-all".

(** ** Generators *)

(** Handle of a [Task] object. *)
Definition tid := nat.

(** How one [iterator.__next__()] ends: the generator yields a value (the
    wait mask; a bare [yield] is falsy like [0]), returns, raises
    [ExitScheduler], or raises anything else. *)
Inductive outcome :=
| Yield (m : Z)
| StopIteration
| RaiseExit
| RaiseOther (e : string).

(** The two task classes, [Task] and [RestartingTask]. *)
Inductive task_class := PlainTask | RestartingTask.

(** What the body of a generator may do to the scheduler between two
    suspension points: it calls the methods of [Task] and [Scheduler]. *)
Inductive call :=
| CallStop (t : tid)
| CallRestart (t : tid)
| CallSetFlag (f : Z)
| CallNewFlag
| CallRun (g : nat -> list call * outcome) (c : task_class)
| CallClear.

(** One step of a generator: the calls it makes, then how it ends. *)
Definition step : Type := list call * outcome.

(** A generator function: [g k] is the step number [k] of an instance. *)
Definition generator_fn : Type := nat -> step.

(** A generator instance, the result of [generator()]. *)
Record Iterator := mkIterator {
  code : generator_fn;
  pc : nat;
  exhausted : bool
}.

Definition fresh_iterator (g : generator_fn) : Iterator :=
  mkIterator g 0 false.

Definition ends (o : outcome) : bool :=
  match o with Yield _ => false | _ => true end.

(** [__next__] on the instance alone: a generator that has returned or
    raised is exhausted and answers [StopIteration] from then on. *)
Definition next_step (it : Iterator) : step * Iterator :=
  if exhausted it then (([], StopIteration), it)
  else let st := code it (pc it) in
       (st, mkIterator (code it) (S (pc it)) (ends st.2)).

(** ** Tasks and the scheduler *)

(** [class Task]: the [scheduler] attribute is the one scheduler of the
    world and is left out. *)
Record Task := mkTask {
  cls : task_class;
  generator : generator_fn;
  iterator : Iterator;
  mask : Z
}.

Record Scheduler := mkScheduler {
  running : list tid;
  waiting : list tid;
  flags : Z;
  flag_counter : nat
}.

(** What the program does that is visible from outside the two lists. *)
Inductive event :=
| EvVisit (t : tid)               (* the flag loop tests [t] *)
| EvResume (t : tid)              (* [t.iterator.__next__()] is called *)
| EvAbort (t : tid)               (* [t._abort_on_error] is called *)
| EvPrint (t : tid) (e : string)  (* [sys.print_exception] *)
| EvSleep                         (* [Scheduler.sleep] *)
| EvWakeup.                       (* [Scheduler.wakeup] *)

Record World := mkWorld {
  sched : Scheduler;
  tasks : list Task;
  log : list event
}.

#[export] Instance event_eq_dec : EqDecision event.
Proof. solve_decision. Defined.

(** Exceptions that leave [Scheduler.loop]. *)
Inductive exn := ExitScheduler | ValueError.

Inductive result :=
| Ok (w : World)
| Raised (e : exn) (w : World).

(** *** Field updates *)

Definition set_running (l : list tid) (w : World) : World :=
  mkWorld (mkScheduler l (waiting (sched w)) (flags (sched w))
             (flag_counter (sched w))) (tasks w) (log w).

Definition set_waiting (l : list tid) (w : World) : World :=
  mkWorld (mkScheduler (running (sched w)) l (flags (sched w))
             (flag_counter (sched w))) (tasks w) (log w).

Definition set_flags (f : Z) (w : World) : World :=
  mkWorld (mkScheduler (running (sched w)) (waiting (sched w)) f
             (flag_counter (sched w))) (tasks w) (log w).

Definition set_flag_counter (n : nat) (w : World) : World :=
  mkWorld (mkScheduler (running (sched w)) (waiting (sched w))
             (flags (sched w)) n) (tasks w) (log w).

Definition set_tasks (ts : list Task) (w : World) : World :=
  mkWorld (sched w) ts (log w).

Definition emit (e : event) (w : World) : World :=
  mkWorld (sched w) (tasks w) (log w ++ [e]).

Definition set_iterator (it : Iterator) (tk : Task) : Task :=
  mkTask (cls tk) (generator tk) it (mask tk).

Definition set_mask (m : Z) (tk : Task) : Task :=
  mkTask (cls tk) (generator tk) (iterator tk) m.

(** Attribute reads through a handle. *)
Definition mask_of (w : World) (t : tid) : Z :=
  from_option mask 0%Z (tasks w !! t).

(** *** [list.remove] *)

(** Python's [l.remove(x)] deletes the first occurrence of [x]; [None]
    stands for the [ValueError] it raises when there is none. *)
Fixpoint py_remove (x : tid) (l : list tid) : option (list tid) :=
  match l with
  | [] => None
  | y :: l' => if decide (x = y) then Some l'
               else cons y <$> py_remove x l'
  end.

(** [try: l.remove(x) except ValueError: pass] *)
Definition remove_quiet (x : tid) (l : list tid) : list tid :=
  default l (py_remove x l).

(** *** Methods of [Scheduler] and [Task] *)

(** [Scheduler.__init__] *)
Definition init_scheduler : Scheduler := mkScheduler [] [] 0 0.

Definition initial : World := mkWorld init_scheduler [] [].

(** [Scheduler.wakeup]: does nothing unless customised. *)
Definition wakeup (w : World) : World := emit EvWakeup w.

(** [Scheduler.sleep] *)
Definition sleep (w : World) : World := emit EvSleep w.

(** [Scheduler.clear] *)
Definition clear (w : World) : World := set_waiting [] (set_running [] w).

(** [Scheduler.new_flag] *)
Definition new_flag (w : World) : Z * World :=
  let flag := Z.shiftl 1 (Z.of_nat (flag_counter (sched w))) in
  (flag, set_flag_counter (S (flag_counter (sched w))) w).

(** [Scheduler.run]: the new [Task] object gets the next free handle. *)
Definition run (g : generator_fn) (c : task_class) (w : World) : tid * World :=
  let task := length (tasks w) in
  let w1 := set_tasks (tasks w ++ [mkTask c g (fresh_iterator g) 0]) w in
  let w2 := set_running (running (sched w1) ++ [task]) w1 in
  (task, wakeup w2).

(** [Scheduler.remove] *)
Definition remove (task : tid) (w : World) : World :=
  let w1 := set_running (remove_quiet task (running (sched w))) w in
  set_waiting (remove_quiet task (waiting (sched w1))) w1.

(** [Scheduler.set_flag] *)
Definition set_flag (flag : Z) (w : World) : World :=
  wakeup (set_flags (Z.lor (flags (sched w)) flag) w).

(** [Task.stop] *)
Definition stop (t : tid) (w : World) : World := remove t w.

(** [self.iterator = self.generator()] *)
Definition renew (tk : Task) : Task :=
  set_iterator (fresh_iterator (generator tk)) tk.

(** [Task.restart].  The method belongs to an object: on a handle that
    denotes no [Task] there is nothing to call after the removal. *)
Definition restart (t : tid) (w : World) : World :=
  let w1 := remove t w in
  match tasks w1 !! t with
  | None => w1
  | Some tk =>
      let w2 := set_tasks (<[t := renew tk]> (tasks w1)) w1 in
      set_running (running (sched w2) ++ [t]) w2
  end.

(** [Task.handle_exception] *)
Definition handle_exception (t : tid) (e : string) (w : World) : World :=
  emit (EvPrint t e) w.

Definition class_of (w : World) (t : tid) : task_class :=
  from_option cls PlainTask (tasks w !! t).

(** [Task._abort_on_error] and its override in [RestartingTask]. *)
Definition abort_on_error (t : tid) (e : string) (w : World) : World :=
  let w1 := emit (EvAbort t) w in
  match class_of w1 t with
  | PlainTask => handle_exception t e w1
  | RestartingTask => restart t (handle_exception t e w1)
  end.

(** The calls made by the body of a generator, in program order. *)
Definition do_call (c : call) (w : World) : World :=
  match c with
  | CallStop t => stop t w
  | CallRestart t => restart t w
  | CallSetFlag f => set_flag f w
  | CallNewFlag => (new_flag w).2
  | CallRun g c => (run g c w).2
  | CallClear => clear w
  end.

Fixpoint run_calls (cs : list call) (w : World) : World :=
  match cs with
  | [] => w
  | c :: cs' => run_calls cs' (do_call c w)
  end.

(** [task.iterator.__next__()]: the instance found in [task.iterator] at
    the time of the call is advanced, its body runs the calls of the step,
    and the step ends with its outcome.  The instance is marked as advanced
    before its calls run: nothing can observe it in between, and a
    [restart] among the calls replaces it by a new instance that this step
    must not touch any more. *)
Definition iterator_next (t : tid) (w : World) : outcome * World :=
  let w0 := emit (EvResume t) w in
  match tasks w0 !! t with
  | None => (StopIteration, w0)
  | Some tk =>
      let '(st, it') := next_step (iterator tk) in
      let w1 := set_tasks (<[t := set_iterator it' tk]> (tasks w0)) w0 in
      (st.2, run_calls st.1 w1)
  end.

(** ** [Scheduler.loop] *)

(** The loop over [list(self.waiting)] of lines 90-93. *)
Fixpoint merge_loop (snapshot : list tid) (w : World) : result :=
  match snapshot with
  | [] => Ok w
  | task :: rest =>
      let w0 := emit (EvVisit task) w in
      if decide (Z.land (flags (sched w0)) (mask_of w0 task) = 0%Z)
      then merge_loop rest w0
      else
        let w1 := set_running (running (sched w0) ++ [task]) w0 in
        match py_remove task (waiting (sched w1)) with
        | None => Raised ValueError w1
        | Some l => merge_loop rest (set_waiting l w1)
        end
  end.

(** Lines 89-94. *)
Definition flag_merge (w : World) : result :=
  if decide (flags (sched w) = 0%Z) then Ok w
  else match merge_loop (waiting (sched w)) w with
       | Ok w' => Ok (set_flags 0 w')
       | Raised e w' => Raised e w'
       end.

(** The body of the loop over [list(self.running)], lines 97-111. *)
Definition resume_one (task : tid) (w : World) : result :=
  let '(o, w1) := iterator_next task w in
  match o with
  | StopIteration => Ok (remove task w1)
  | RaiseExit => Raised ExitScheduler w1
  | RaiseOther e => Ok (abort_on_error task e (remove task w1))
  | Yield m =>
      if decide (m = 0%Z) then Ok w1
      else
        match py_remove task (running (sched w1)) with
        | None => Raised ValueError w1
        | Some l =>
            let w2 := set_waiting (waiting (sched w1) ++ [task])
                        (set_running l w1) in
            Ok (set_tasks (alter (set_mask m) task (tasks w2)) w2)
        end
  end.

(** Lines 96-111. *)
Fixpoint resume_loop (snapshot : list tid) (w : World) : result :=
  match snapshot with
  | [] => Ok w
  | task :: rest =>
      match resume_one task w with
      | Ok w' => resume_loop rest w'
      | Raised e w' => Raised e w'
      end
  end.

(** One turn of [while True], lines 89-113. *)
Definition pass (w : World) : result :=
  match flag_merge w with
  | Raised e w' => Raised e w'
  | Ok w1 =>
      match running (sched w1) with
      | [] => Ok (sleep w1)
      | _ :: _ => resume_loop (running (sched w1)) w1
      end
  end.

(** [Scheduler.loop] never returns; it can only be left by an exception.
    [loop n] runs at most [n] turns and answers [Ok] with the state reached
    when they all completed. *)
Fixpoint loop (n : nat) (w : World) : result :=
  match n with
  | 0 => Ok w
  | S n' =>
      match pass w with
      | Ok w' => loop n' w'
      | Raised e w' => Raised e w'
      end
  end.

(** ** Derived notions used by the statements *)

(** [n] successive calls of [new_flag], with the flags they return. *)
Fixpoint new_flags (n : nat) (w : World) : list Z * World :=
  match n with
  | 0 => ([], w)
  | S n' =>
      let '(f, w1) := new_flag w in
      let '(fs, w2) := new_flags n' w1 in
      (f :: fs, w2)
  end.

(** The binary writing of [z] has exactly one digit 1. *)
Fixpoint pos_single_bit (p : positive) : bool :=
  match p with
  | xH => true
  | xO p' => pos_single_bit p'
  | xI _ => false
  end.

Definition single_bit (z : Z) : bool :=
  match z with
  | Zpos p => pos_single_bit p
  | _ => false
  end.

(** The test of line 91, on the flags [f] and the masks stored in [ts]. *)
Definition woken (f : Z) (ts : list Task) (t : tid) : Prop :=
  Z.land f (from_option mask 0%Z (ts !! t)) ≠ 0%Z.

#[export] Instance woken_dec f ts t : Decision (woken f ts t).
Proof. unfold woken. apply _. Defined.


(** The state after the flag step when some flag is pending: the woken
    tasks are appended to [running] in the order of [waiting], the others
    stay in [waiting], the flags are reset, every waiting task was tested
    once, and no [Task] object was written to. *)
Definition merged (w : World) : World :=
  let f := flags (sched w) in
  mkWorld
    (mkScheduler
       (running (sched w) ++ filter (woken f (tasks w)) (waiting (sched w)))
       (filter (λ t, ¬ woken f (tasks w) t) (waiting (sched w)))
       0 (flag_counter (sched w)))
    (tasks w) (log w ++ (EvVisit <$> waiting (sched w))).

(** *** Examples *)

Definition idle_gen : generator_fn := λ _, ([], Yield 0).

(** Three tasks waiting on the flags 1, 2 and 4|1, with flags 1 and 4
    pending. *)
Definition three_waiting : World :=
  mkWorld (mkScheduler [] [0; 1; 2] 5 3)
    [mkTask PlainTask idle_gen (fresh_iterator idle_gen) 1;
     mkTask PlainTask idle_gen (fresh_iterator idle_gen) 2;
     mkTask PlainTask idle_gen (fresh_iterator idle_gen) 5] [].

(** ** The invariant of the two lists *)

(** The handles held by the scheduler. *)
Definition members (w : World) : list tid :=
  running (sched w) ++ waiting (sched w).

(** No handle is held twice, in one list or across the two, and every
    handle held denotes a [Task] object. *)
Definition wf (w : World) : Prop :=
  NoDup (members w) ∧ ∀ t, t ∈ members w → t < length (tasks w).

Definition world_of (r : result) : World :=
  match r with Ok w | Raised _ w => w end.

(** The tasks resumed, in order, according to a piece of log. *)
Definition resumed (evs : list event) : list tid :=
  omap (λ ev, match ev with EvResume t => Some t | _ => None end) evs.

(** The events that [w'] logged after [w]. *)
Definition events_since (w w' : World) : list event :=
  drop (length (log w)) (log w').

(** Events other than a resume, a flag test and a sleep. *)
Definition side_event (ev : event) : Prop :=
  match ev with
  | EvWakeup | EvAbort _ | EvPrint _ _ => True
  | EvVisit _ | EvResume _ | EvSleep => False
  end.

#[export] Instance wf_dec w : Decision (wf w).
Proof.
  refine (cast_if (decide (NoDup (members w)
                           ∧ Forall (λ t, t < length (tasks w)) (members w))));
    unfold wf; rewrite Forall_forall in *; tauto.
Defined.

(** *** More examples *)

(** A generator whose every step raises. *)
Definition failing_gen : generator_fn := λ _, ([], RaiseOther "boom"%string).

(** A generator that raises [ExitScheduler] at once. *)
Definition exit_gen : generator_fn := λ _, ([], RaiseExit).

(** A generator that returns at once. *)
Definition done_gen : generator_fn := λ _, ([], StopIteration).

(** A generator that stops the task [t] and then waits for flag 1. *)
Definition stop_then_wait_gen (t : tid) : generator_fn :=
  λ _, ([CallStop t], Yield 1).

(** A restarting task that always fails, submitted to a fresh scheduler. *)
Definition one_failing : World := (run failing_gen RestartingTask initial).2.

(** An idle task followed by one that exits the scheduler. *)
Definition idle_then_exit : World :=
  (run exit_gen PlainTask (run idle_gen PlainTask initial).2).2.

(** A single task that returns at once. *)
Definition one_done : World := (run done_gen PlainTask initial).2.

(** A single task, with handle 0, that stops itself and then waits. *)
Definition one_stopping_itself : World :=
  (run (stop_then_wait_gen 0) PlainTask initial).2.

(** ** Restarting *)






(** No step of the generator calls the scheduler or exits it. *)
Definition quiet (g : generator_fn) : Prop :=
  ∀ k, (g k).1 = [] ∧ (g k).2 ≠ RaiseExit.

(** The siblings of [t]: every other task runs an instance of its own
    generator, and that generator is quiet. *)
Definition quiet_siblings (t : tid) (w : World) : Prop :=
  ∀ u tk, u ≠ t → tasks w !! u = Some tk →
          code (iterator tk) = generator tk ∧ quiet (generator tk).


(** A failing restarting task between a quiet task and a waiting one. *)
Definition failing_among_quiet : World :=
  mkWorld (mkScheduler [0; 1] [2] 0 0)
    [mkTask PlainTask idle_gen (fresh_iterator idle_gen) 0;
     mkTask RestartingTask failing_gen (fresh_iterator failing_gen) 0;
     mkTask PlainTask done_gen (fresh_iterator done_gen) 4] [].

(** ** Histories *)

(** What the program around the scheduler can do to it: call a method, or
    let [loop] make one turn; a turn that raises leaves the state where the
    exception found it, and the program may go on from there. *)
Inductive op :=
| OpCall (c : call)
| OpPass.

Definition do_op (o : op) (w : World) : World :=
  match o with
  | OpCall c => do_call c w
  | OpPass => world_of (pass w)
  end.

Fixpoint exec (ops : list op) (w : World) : World :=
  match ops with
  | [] => w
  | o :: ops' => exec ops' (do_op o w)
  end.

(** Every waiting task waits on something. *)
Definition waiting_masks_set (w : World) : Prop :=
  ∀ t, t ∈ waiting (sched w) → mask_of w t ≠ 0%Z.

(** How many times [sleep] was called according to a piece of log. *)
Fixpoint sleeps (evs : list event) : nat :=
  match evs with
  | [] => 0
  | EvSleep :: evs' => S (sleeps evs')
  | _ :: evs' => sleeps evs'
  end.

(** Task 0 stops task 1, which then waits on flag 1. *)
Definition stopped_by_sibling : World :=
  (run (stop_then_wait_gen 1) PlainTask
     (run (stop_then_wait_gen 1) PlainTask initial).2).2.

(** A task that waits on flag 2 at its first step. *)
Definition wait2_gen : generator_fn :=
  λ k, match k with 0 => ([], Yield 2) | _ => ([], StopIteration) end.

Definition one_waiter : World := (run wait2_gen PlainTask initial).2.

(** Three tasks waiting on the flags 1, 2 and 4, with flag 8 pending. *)
Definition three_waiting_other : World :=
  mkWorld (mkScheduler [] [0; 1; 2] 8 4)
    [mkTask PlainTask idle_gen (fresh_iterator idle_gen) 1;
     mkTask PlainTask idle_gen (fresh_iterator idle_gen) 2;
     mkTask PlainTask idle_gen (fresh_iterator idle_gen) 4] [].

(** Every task of [w] is still there in [w'], under the same handle, with
    its class and its generator. *)
Definition keeps_tasks (w w' : World) : Prop :=
  ∀ t tk, tasks w !! t = Some tk →
          ∃ tk', tasks w' !! t = Some tk' ∧
                 cls tk' = cls tk ∧ generator tk' = generator tk.

(** ** Tasks that never wait *)

(** Every step of the generator yields a falsy value, without calling the
    scheduler. *)
Definition always_yields_zero (g : generator_fn) : Prop :=
  ∀ k, g k = ([], Yield 0).

(** The task [t] is runnable on a live instance of the generator [g]. *)
Definition running_on (t : tid) (g : generator_fn) (w : World) : Prop :=
  t ∈ running (sched w) ∧
  ∃ tk, tasks w !! t = Some tk ∧ generator tk = g ∧
        code (iterator tk) = g ∧ exhausted (iterator tk) = false.

(** How many times [t] was resumed according to a piece of log. *)
Definition resumes_of (t : tid) (evs : list event) : nat :=
  length (filter (λ u, u = t) (resumed evs)).

(** A task that never waits, a task that returns at once and a task that
    waits on flag 2. *)
Definition spinner_among_others : World :=
  (run wait2_gen PlainTask
     (run done_gen PlainTask (run idle_gen PlainTask initial).2).2).2.

(** ** Passes that are cut short, and what a turn does to an instance *)



(** A generator that stops the task [t] and then exits the scheduler. *)
Definition stop_then_exit_gen (t : tid) : generator_fn :=
  λ _, ([CallStop t], RaiseExit).

(** A single task, with handle 0, that stops itself and then exits. *)
Definition one_stopping_then_exiting : World :=
  (run (stop_then_exit_gen 0) PlainTask initial).2.



(** * The logging module [ulog.py]

    Facilities and priorities are integers and messages are strings; a
    string stands for its UTF-8 bytes, so that [encode('utf-8')] changes
    nothing.  What the module writes to [sys.stdout] and sends over its
    sockets is collected in [outputs]. *)

Module Ulog.

(** Arguments of [add_remote], and what a socket address is made of. *)
Inductive value :=
| VInt (z : Z)
| VStr (s : string).

Inductive error :=
| NameError (name : string)
| IndexError
| TypeError
| OSError.

Inductive res (A : Type) :=
| Returned (a : A)
| Failed (e : error).
Arguments Returned {A} a.
Arguments Failed {A} e.

(** The priorities. *)
Definition LOG_EMERG : Z := 0.
Definition LOG_ALERT : Z := 1.
Definition LOG_CRIT : Z := 2.
Definition LOG_ERR : Z := 3.
Definition LOG_WARNING : Z := 4.
Definition LOG_NOTICE : Z := 5.
Definition LOG_INFO : Z := 6.
Definition LOG_DEBUG : Z := 7.

(** The facility codes, [0o000] to [0o130] in the source. *)
Definition LOG_KERN : Z := 0.
Definition LOG_USER : Z := 8.
Definition LOG_MAIL : Z := 16.
Definition LOG_DAEMON : Z := 24.
Definition LOG_AUTH : Z := 32.
Definition LOG_SYSLOG : Z := 40.
Definition LOG_LPR : Z := 48.
Definition LOG_NEWS : Z := 56.
Definition LOG_UUCP : Z := 64.
Definition LOG_CRON : Z := 72.
Definition LOG_AUTHPRIV : Z := 80.
Definition LOG_FTP : Z := 88.

Definition facility_codes : list Z :=
  [LOG_KERN; LOG_USER; LOG_MAIL; LOG_DAEMON; LOG_AUTH; LOG_SYSLOG; LOG_LPR;
   LOG_NEWS; LOG_UUCP; LOG_CRON; LOG_AUTHPRIV; LOG_FTP].

(** The integer constants of the module namespace, by name. *)
Definition globals : gmap string Z :=
  list_to_map
    [("LOG_EMERG", LOG_EMERG); ("LOG_ALERT", LOG_ALERT);
     ("LOG_CRIT", LOG_CRIT); ("LOG_ERR", LOG_ERR);
     ("LOG_WARNING", LOG_WARNING); ("LOG_NOTICE", LOG_NOTICE);
     ("LOG_INFO", LOG_INFO); ("LOG_DEBUG", LOG_DEBUG);
     ("LOG_KERN", LOG_KERN); ("LOG_USER", LOG_USER); ("LOG_MAIL", LOG_MAIL);
     ("LOG_DAEMON", LOG_DAEMON); ("LOG_AUTH", LOG_AUTH);
     ("LOG_SYSLOG", LOG_SYSLOG); ("LOG_LPR", LOG_LPR);
     ("LOG_NEWS", LOG_NEWS); ("LOG_UUCP", LOG_UUCP); ("LOG_CRON", LOG_CRON);
     ("LOG_AUTHPRIV", LOG_AUTHPRIV); ("LOG_FTP", LOG_FTP)].

(** Reading a global name inside a method, at the time of the call. *)
Definition global (name : string) : res Z :=
  match globals !! name with
  | Some v => Returned v
  | None => Failed (NameError name)
  end.

Definition prio_text : list string :=
  ["EMERG"; "ALERT"; "CRIT"; "ERR"; "WARN"; "NOTICE"; "INFO"; "DEBUG"].

(** [t[i]] on a tuple: a negative index counts from the end, an index out
    of range raises [IndexError] ([None]). *)
Definition tuple_index {A} (t : list A) (i : Z) : option A :=
  if decide (0 ≤ i)%Z then t !! Z.to_nat i
  else if decide (- Z.of_nat (length t) ≤ i)%Z
       then t !! Z.to_nat (Z.of_nat (length t) + i)
       else None.

(** The line feed that ends both formats. *)
Definition nl : string := String (Ascii.ascii_of_nat 10) "".

Inductive output :=
| Stdout (text : string)
| Sendto (address : value * value) (payload : string).

(** The two handler classes; [fmt] is the constant set by [__init__]. *)
Inductive Handler :=
| DefaultHandler
| RSyslogHandler (address : value * value).

(** What the network does with a datagram for a host and a port: it takes
    it ([None]) or [sendto] raises.  The source does not decide this. *)
Definition network : Type := string → Z → option error.

(** [socket.sendto(payload, address)]: the address has to be a host name
    and a port number; anything else is a [TypeError]. *)
Definition sendto (net : network) (address : value * value) (payload : string)
    : res output :=
  match address with
  | (VStr host, VInt port) =>
      match net host port with
      | None => Returned (Sendto address payload)
      | Some e => Failed e
      end
  | _ => Failed TypeError
  end.

(** The record that [RSyslogHandler.write_log] formats, line 55. *)
Definition rsyslog_record (facility priority : Z) (message : string) : string :=
  "<" +:+ pretty (Z.lor facility priority) +:+ "> " +:+ message +:+ nl.

(** [write_log] of both classes.  The arguments of [format] are evaluated
    before anything is written. *)
Definition write_log (net : network) (h : Handler) (facility priority : Z)
    (message : string) : res output :=
  match h with
  | DefaultHandler =>
      match tuple_index prio_text priority with
      | Some p =>
          Returned (Stdout (p +:+ " " +:+ pretty facility +:+ " "
                            +:+ message +:+ nl))
      | None => Failed IndexError
      end
  | RSyslogHandler address =>
      sendto net address (rsyslog_record facility priority message)
  end.

(** The module state: the list [handlers] and what was written so far. *)
Record State := mkState {
  handlers : list Handler;
  outputs : list output
}.

(** After import: [handlers = [DefaultHandler()]]. *)
Definition initial : State := mkState [DefaultHandler] [].

Record Logger := mkLogger { facility : Z }.

(** [Logger()], with the default facility. *)
Definition default_logger : Logger := mkLogger LOG_USER.

(** The loop of [Logger.log] over the handlers that are left. *)
Fixpoint log_loop (net : network) (hs : list Handler) (f p : Z) (m : string)
    (out : list output) : res unit * list output :=
  match hs with
  | [] => (Returned (), out)
  | h :: hs' =>
      match write_log net h f p m with
      | Returned o => log_loop net hs' f p m (out ++ [o])
      | Failed e => (Failed e, out)
      end
  end.

(** [Logger.log] *)
Definition log (net : network) (self : Logger) (priority : Z)
    (message : string) (st : State) : res unit * State :=
  let '(r, out) :=
    log_loop net (handlers st) (facility self) priority message (outputs st) in
  (r, mkState (handlers st) out).

(** A method that logs with the priority found under a global name. *)
Definition log_as (name : string) (net : network) (self : Logger)
    (message : string) (st : State) : res unit * State :=
  match global name with
  | Returned p => log net self p message st
  | Failed e => (Failed e, st)
  end.

(** [Logger.debug], [Logger.info], [Logger.warn] and [Logger.error], with
    the names their bodies read. *)
Definition debug := log_as "LOG_DEBUG".
Definition info := log_as "LOG_INFO".
Definition warn := log_as "LOG_WARN".
Definition error_ := log_as "LOG_ERROR".

(** [def add_remote(self, host, port=514)], a function of the module,
    called with positional arguments. *)
Definition add_remote (args : list value) (st : State) : res unit * State :=
  match args with
  | [_; host] =>
      (Returned (),
       mkState (handlers st ++ [RSyslogHandler (host, VInt 514)]) (outputs st))
  | [_; host; port] =>
      (Returned (),
       mkState (handlers st ++ [RSyslogHandler (host, port)]) (outputs st))
  | _ => (Failed TypeError, st)
  end.

(** A sequence of [add_remote] calls; calls that raise change nothing. *)
Fixpoint add_remotes (calls : list (list value)) (st : State) : State :=
  match calls with
  | [] => st
  | args :: calls' => add_remotes calls' (add_remote args st).2
  end.

(** A handler that can take a record: the console, or a remote whose
    address is a host name and a port number that the network takes. *)
Definition serves (net : network) (h : Handler) : Prop :=
  match h with
  | DefaultHandler => True
  | RSyslogHandler (VStr host, VInt port) => net host port = None
  | RSyslogHandler _ => False
  end.

(** A network that takes every datagram. *)
Definition open_network : network := λ _ _, None.

End Ulog.
(** * Proofs *)

(** ** [list.remove] *)

Section py_remove.
Implicit Types (x y : tid) (l k : list tid).

Lemma py_remove_middle x l k :
  x ∉ l → py_remove x (l ++ x :: k) = Some (l ++ k).
Proof.
  induction l as [|y l IH]; intros Hx; simpl.
  - by rewrite decide_True.
  - apply not_elem_of_cons in Hx as [Hxy Hx].
    rewrite decide_False by done. by rewrite IH.
Qed.

Lemma py_remove_Some x l l' :
  py_remove x l = Some l' →
  ∃ l1 l2, l = l1 ++ x :: l2 ∧ (x ∉ l1) ∧ l' = l1 ++ l2.
Proof.
  revert l'. induction l as [|y l IH]; intros l'; simpl; [done|].
  destruct (decide (x = y)) as [->|Hne].
  - intros [= <-]. exists [], l. split_and!; [done| |done].
    apply not_elem_of_nil.
  - destruct (py_remove x l) as [l0|] eqn:E; simpl; [|done].
    intros [= <-]. destruct (IH l0 eq_refl) as (l1 & l2 & -> & Hx & ->).
    exists (y :: l1), l2. split_and!; [done| |done].
    apply not_elem_of_cons; done.
Qed.

Lemma py_remove_None x l : py_remove x l = None ↔ x ∉ l.
Proof.
  induction l as [|y l IH]; simpl.
  - split; [intros _; apply not_elem_of_nil|done].
  - rewrite not_elem_of_cons. destruct (decide (x = y)) as [->|Hne].
    + split; [done|]. by intros [? _].
    + destruct (py_remove x l); simpl; split; try done.
      * intros [_ H]. by apply IH in H.
      * intros _. split; [done|]. by apply IH.
Qed.

Lemma py_remove_elem x l : x ∈ l → is_Some (py_remove x l).
Proof.
  intros Hx. destruct (py_remove x l) eqn:E; [by eexists|].
  by apply py_remove_None in E.
Qed.

Lemma remove_quiet_absent x l : x ∉ l → remove_quiet x l = l.
Proof. intros H. apply py_remove_None in H. unfold remove_quiet. by rewrite H. Qed.

Lemma remove_quiet_subseteq x l : remove_quiet x l ⊆ l.
Proof.
  unfold remove_quiet. destruct (py_remove x l) as [l'|] eqn:E; simpl; [|done].
  apply py_remove_Some in E as (l1 & l2 & -> & _ & ->).
  intros y. rewrite !elem_of_app, elem_of_cons. tauto.
Qed.

Lemma remove_quiet_other x y l : y ≠ x → y ∈ l → y ∈ remove_quiet x l.
Proof.
  intros Hne. unfold remove_quiet.
  destruct (py_remove x l) as [l'|] eqn:E; simpl; [|done].
  apply py_remove_Some in E as (l1 & l2 & -> & _ & ->).
  rewrite !elem_of_app, elem_of_cons. intros [?|[?|?]]; tauto.
Qed.

Lemma remove_quiet_NoDup x l : NoDup l → NoDup (remove_quiet x l).
Proof.
  unfold remove_quiet. destruct (py_remove x l) as [l'|] eqn:E; simpl; [|done].
  apply py_remove_Some in E as (l1 & l2 & -> & _ & ->).
  rewrite !NoDup_app, NoDup_cons. intros (? & H & ? & ?).
  split_and!; [done| |done].
  intros y Hy Hy2. apply (H y Hy). by right.
Qed.

(** With a single occurrence, [remove] leaves none behind. *)
Lemma remove_quiet_gone x l : NoDup l → x ∉ remove_quiet x l.
Proof.
  unfold remove_quiet. destruct (py_remove x l) as [l'|] eqn:E; simpl.
  - apply py_remove_Some in E as (l1 & l2 & -> & Hx & ->).
    rewrite NoDup_app, NoDup_cons. intros (_ & _ & Hx2 & _).
    rewrite elem_of_app. tauto.
  - intros _. by apply py_remove_None.
Qed.
End py_remove.

(** ** Flags *)

Lemma shiftl_1_succ (k : nat) :
  Z.shiftl 1 (Z.of_nat (S k)) = (2 * Z.shiftl 1 (Z.of_nat k))%Z.
Proof.
  rewrite !Z.shiftl_1_l, Nat2Z.inj_succ, Z.pow_succ_r by lia. done.
Qed.

Lemma single_bit_shiftl (k : nat) : single_bit (Z.shiftl 1 (Z.of_nat k)) = true.
Proof.
  induction k as [|k IH]; [done|].
  rewrite shiftl_1_succ. destruct (Z.shiftl 1 (Z.of_nat k)); done.
Qed.

Lemma shiftl_1_inj (j k : nat) :
  Z.shiftl 1 (Z.of_nat j) = Z.shiftl 1 (Z.of_nat k) → j = k.
Proof.
  rewrite !Z.shiftl_1_l. intros H.
  apply Z.pow_inj_r in H; lia.
Qed.

Lemma new_flags_fst n w :
  (new_flags n w).1
  = (λ k, Z.shiftl 1 (Z.of_nat k)) <$> seq (flag_counter (sched w)) n.
Proof.
  revert w. induction n as [|n IH]; intros w; [done|].
  simpl. specialize (IH (set_flag_counter (S (flag_counter (sched w))) w)).
  destruct (new_flags n _) as [fs w2]. simpl in *. by rewrite IH.
Qed.

Lemma new_flags_snd n w :
  (new_flags n w).2 = set_flag_counter (flag_counter (sched w) + n) w.
Proof.
  revert w. induction n as [|n IH]; intros w; simpl.
  - destruct w as [[] ? ?]. unfold set_flag_counter. simpl. by rewrite Nat.add_0_r.
  - specialize (IH (set_flag_counter (S (flag_counter (sched w))) w)).
    destruct (new_flags n _) as [fs w2]. simpl in *. rewrite IH.
    unfold set_flag_counter. simpl. do 2 f_equal. lia.
Qed.

(** ** The flag loop *)

Lemma merge_loop_spec rest : ∀ w pre,
  waiting (sched w) = pre ++ rest →
  (∀ t, t ∈ pre → ¬ woken (flags (sched w)) (tasks w) t) →
  merge_loop rest w
  = Ok (mkWorld
          (mkScheduler
             (running (sched w) ++ filter (woken (flags (sched w)) (tasks w)) rest)
             (pre ++ filter (λ t, ¬ woken (flags (sched w)) (tasks w) t) rest)
             (flags (sched w)) (flag_counter (sched w)))
          (tasks w) (log w ++ (EvVisit <$> rest))).
Proof.
  induction rest as [|t rest IH]; intros [[r wt f c] ts lg] pre; simpl;
    intros Hw Hpre.
  - rewrite app_nil_r in Hw. rewrite !filter_nil, !app_nil_r. by subst.
  - unfold mask_of; simpl. rewrite !filter_cons. fold (woken f ts t).
    destruct (decide (Z.land f (from_option mask 0%Z (ts !! t)) = 0%Z)) as [Hz|Hnz].
    + rewrite decide_False by (unfold woken; tauto).
      rewrite decide_True by (unfold woken; tauto).
      rewrite (IH _ (pre ++ [t])); simpl.
      * by rewrite <- !app_assoc.
      * by rewrite <- app_assoc.
      * intros u [Hu| ->%list_elem_of_singleton]%elem_of_app; [by apply Hpre|].
        unfold woken; tauto.
    + rewrite decide_True by done.
      rewrite decide_False by (unfold woken; tauto).
      subst wt. rewrite py_remove_middle by (intros Ht; by apply (Hpre t)).
      rewrite (IH _ pre); simpl; [|done|done].
      by rewrite <- !app_assoc.
Qed.


Lemma flag_merge_pending w :
  flags (sched w) ≠ 0%Z → flag_merge w = Ok (merged w).
Proof.
  intros Hf. unfold flag_merge. rewrite decide_False by done.
  rewrite (merge_loop_spec _ w []); [done|done|].
  intros t Ht. by apply not_elem_of_nil in Ht.
Qed.

Lemma flag_merge_idle w : flags (sched w) = 0%Z → flag_merge w = Ok w.
Proof. intros Hf. unfold flag_merge. by rewrite decide_True. Qed.

(** The flag step cannot raise. *)
Lemma flag_merge_total w :
  flag_merge w = Ok (if decide (flags (sched w) = 0%Z) then w else merged w).
Proof.
  destruct (decide _); [by apply flag_merge_idle|by apply flag_merge_pending].
Qed.


Example three_waiting_merge :
  flag_merge three_waiting
  = Ok (mkWorld (mkScheduler [0; 2] [1] 0 3) (tasks three_waiting)
          [EvVisit 0; EvVisit 1; EvVisit 2]).
Proof. reflexivity. Qed.

(** C1: in a fresh scheduler [n] successive calls of [new_flag] return [n]
    pairwise distinct values with a single bit set each; with pending flags
    other than 0 the flag step ends in [merged w], that is, the waiting
    tasks whose mask meets the flags, and only they, are appended to
    [running] in the order of [waiting], and the flags are 0 afterwards;
    with no flag pending [set_flag f] leaves exactly [f] pending, and the
    flag step then changes nothing and tests no task. *)
Theorem flag_round_trip (n : nat) (f : Z) (w w0 : World) :
  (let fs := (new_flags n initial).1 in
   length fs = n ∧ NoDup fs ∧ Forall (λ x, single_bit x = true) fs) ∧
  (flags (sched w) = f → f ≠ 0%Z →
   flag_merge w = Ok (merged w) ∧
   running (sched (merged w))
   = running (sched w)
     ++ filter (λ t, Z.land f (mask_of w t) ≠ 0%Z) (waiting (sched w)) ∧
   waiting (sched (merged w))
   = filter (λ t, ¬ Z.land f (mask_of w t) ≠ 0%Z) (waiting (sched w)) ∧
   flags (sched (merged w)) = 0%Z ∧
   log (merged w) = log w ++ (EvVisit <$> waiting (sched w))) ∧
  (flags (sched w0) = 0%Z →
   flags (sched (set_flag f w0)) = f ∧ flag_merge w0 = Ok w0).
Proof.
  split_and!.
  - simpl. rewrite new_flags_fst. simpl. split_and!.
    + by rewrite length_fmap, length_seq.
    + apply NoDup_fmap_2; [|apply NoDup_seq].
      intros j k. apply shiftl_1_inj.
    + apply Forall_fmap, Forall_forall. intros k _. apply single_bit_shiftl.
  - intros <- Hf. split; [by apply flag_merge_pending|done].
  - intros Hf. split; [simpl; by rewrite Hf|by apply flag_merge_idle].
Qed.

Lemma flag_round_trip_witness :
  flags (sched three_waiting) = 5%Z ∧
  flag_merge three_waiting = Ok (merged three_waiting) ∧
  running (sched (merged three_waiting)) = [0; 2] ∧
  waiting (sched (merged three_waiting)) = [1] ∧
  flag_merge initial = Ok initial.
Proof.
  destruct (flag_round_trip 3 5 three_waiting initial) as (_ & H & H0).
  destruct H as (H1 & _); [reflexivity|discriminate|].
  destruct H0 as (_ & H2); [reflexivity|].
  split; [reflexivity|]. split; [exact H1|].
  split; [reflexivity|]. split; [reflexivity|exact H2].
Defined.

(** ** Flag capacity *)

(** C3, as stated, fails: after 64 calls the next call of [new_flag]
    returns the flag [2^64] and moves the counter to 65; nothing is
    raised and the state is not the one before the call. *)
Lemma new_flag_no_capacity_error :
  let w := (new_flags 64 initial).2 in
  new_flag w = (18446744073709551616%Z, set_flag_counter 65 w) ∧
  (new_flag w).2 ≠ w.
Proof. vm_compute. split; [reflexivity|discriminate]. Qed.

(** C3, amended: [new_flag] has no capacity limit and cannot fail.  In
    every state [w0], after [n] further calls, the next call returns
    [1 << (c + n)], where [c] is the flag counter of [w0] (so [1 << n] when
    no flag had been handed out in [w0]): a single-bit value that none of
    these [n] calls returned.  The call advances the counter by one and
    leaves the pending flags, both task lists, the tasks and the log of
    the state it is made in as they were. *)
Theorem new_flag_unbounded (n : nat) (w0 : World) :
  let w := (new_flags n w0).2 in
  let '(flag, w') := new_flag w in
  flag = Z.shiftl 1 (Z.of_nat (flag_counter (sched w0) + n)) ∧
  single_bit flag = true ∧
  (flag ∉ (new_flags n w0).1) ∧
  flag_counter (sched w) = flag_counter (sched w0) + n ∧
  flag_counter (sched w') = S (flag_counter (sched w)) ∧
  running (sched w') = running (sched w) ∧
  waiting (sched w') = waiting (sched w) ∧
  flags (sched w') = flags (sched w) ∧
  tasks w' = tasks w ∧ log w' = log w.
Proof.
  simpl. rewrite new_flags_snd, new_flags_fst. simpl.
  split_and!; try done.
  - apply single_bit_shiftl.
  - intros (k & Hk & Hin)%list_elem_of_fmap.
    apply shiftl_1_inj in Hk. subst k.
    apply elem_of_seq in Hin. lia.
Qed.

(** ** Wait masks across the flag step *)

(** C4, as stated, fails: task 0 waits on flag 1, flag 1 is pending; the
    flag step moves the task to [running] and its mask is still 1. *)
Lemma merge_keeps_mask_counterexample :
  let w := mkWorld (mkScheduler [] [0] 1 1)
             [mkTask PlainTask idle_gen (fresh_iterator idle_gen) 1] [] in
  ∃ w', flag_merge w = Ok w' ∧
        running (sched w') = [0] ∧ waiting (sched w') = [] ∧
        mask_of w' 0 = 1%Z ∧ mask_of w' 0 ≠ 0%Z.
Proof. eexists. split; [reflexivity|]. by split_and!. Qed.

(** C4, amended: the flag step writes to no [Task] object; every waiting
    task that it moves to [running] keeps the mask it was waiting with,
    which is not 0 since it meets the pending flags. *)
Theorem merge_keeps_mask (w : World) (t : tid) :
  t ∈ waiting (sched w) →
  Z.land (flags (sched w)) (mask_of w t) ≠ 0%Z →
  ∃ w', flag_merge w = Ok w' ∧
        t ∈ running (sched w') ∧ (t ∉ waiting (sched w')) ∧
        tasks w' = tasks w ∧
        mask_of w' t = mask_of w t ∧ mask_of w' t ≠ 0%Z.
Proof.
  intros Ht Hm.
  assert (flags (sched w) ≠ 0%Z) as Hf.
  { intros Hf. rewrite Hf in Hm. by rewrite Z.land_0_l in Hm. }
  exists (merged w). split; [by apply flag_merge_pending|].
  assert (mask_of w t ≠ 0%Z) as Hnz.
  { intros H0. rewrite H0, Z.land_0_r in Hm. done. }
  simpl. split_and!; try done.
  - apply elem_of_app. right. by apply list_elem_of_filter.
  - intros [Hn _]%list_elem_of_filter. by apply Hn.
Qed.

Lemma merge_keeps_mask_witness :
  ∃ w', flag_merge three_waiting = Ok w' ∧
        2 ∈ running (sched w') ∧ mask_of w' 2 = 5%Z.
Proof.
  destruct (merge_keeps_mask three_waiting 2) as (w' & H1 & H2 & _ & _ & H3 & _).
  - apply list_elem_of_In. simpl. tauto.
  - vm_compute. discriminate.
  - exists w'. split; [exact H1|]. split; [exact H2|].
    rewrite H3. reflexivity.
Defined.

(** ** The two lists stay well formed *)

Ltac unf :=
  unfold wf, members, stop, clear, set_flag, wakeup, sleep, handle_exception,
    new_flag, remove, emit, set_tasks, set_running, set_waiting, set_flags,
    set_flag_counter in *; simpl in *.

Lemma wf_initial : wf initial.
Proof. split; [constructor|]. intros t Ht. by apply not_elem_of_nil in Ht. Qed.

(** Changing the lists to a duplicate-free selection of the handles held,
    without losing [Task] objects, keeps the invariant. *)
Lemma wf_shrink w w' :
  wf w → NoDup (members w') → members w' ⊆ members w →
  length (tasks w) ≤ length (tasks w') → wf w'.
Proof.
  intros [_ Hb] Hnd Hsub Hlen. split; [done|].
  intros t Ht. specialize (Hb t (Hsub t Ht)). lia.
Qed.

Lemma wf_emit ev w : wf w → wf (emit ev w).
Proof. done. Qed.

Lemma wf_set_tasks ts w :
  length (tasks w) ≤ length ts → wf w → wf (set_tasks ts w).
Proof.
  intros Hlen [Hnd Hb]. split; [done|].
  intros t Ht. specialize (Hb t Ht). simpl. lia.
Qed.

Lemma remove_members_NoDup t r wt :
  NoDup (r ++ wt) → NoDup (remove_quiet t r ++ remove_quiet t wt).
Proof.
  rewrite !NoDup_app. intros (Hr & Hd & Hwt). split_and!.
  - by apply remove_quiet_NoDup.
  - intros x Hx Hx'. apply (Hd x); by eapply remove_quiet_subseteq.
  - by apply remove_quiet_NoDup.
Qed.

Lemma remove_members_gone t r wt :
  NoDup (r ++ wt) → t ∉ remove_quiet t r ++ remove_quiet t wt.
Proof.
  rewrite NoDup_app, elem_of_app. intros (Hr & _ & Hwt) [H|H].
  - by apply (remove_quiet_gone t r).
  - by apply (remove_quiet_gone t wt).
Qed.

Lemma wf_remove t w : wf w → wf (remove t w).
Proof.
  intros Hw. apply (wf_shrink w); [done| | |done].
  - apply remove_members_NoDup, Hw.
  - unf. intros x [Hx|Hx]%elem_of_app; apply elem_of_app;
      [left|right]; by eapply remove_quiet_subseteq.
Qed.

Lemma remove_gone t w : wf w → t ∉ members (remove t w).
Proof. intros [Hnd _]. by apply remove_members_gone. Qed.

Lemma wf_append_running t w :
  wf w → t ∉ members w → t < length (tasks w) →
  wf (set_running (running (sched w) ++ [t]) w).
Proof.
  intros [Hnd Hb] Ht Hlt. unf. split.
  - eapply NoDup_Permutation_proper; [|apply (NoDup_cons_2 t _ Ht Hnd)].
    rewrite <- app_assoc. rewrite (Permutation_app_comm [t]).
    by rewrite app_assoc, <- Permutation_cons_append.
  - intros x Hx. rewrite <- app_assoc, (Permutation_app_comm [t]), app_assoc in Hx.
    apply elem_of_app in Hx as [Hx| ->%list_elem_of_singleton]; auto.
Qed.

Lemma wf_restart t w : wf w → wf (restart t w).
Proof.
  intros Hw. unfold restart.
  pose proof (wf_remove t w Hw) as Hw1. pose proof (remove_gone t w Hw) as Hg.
  destruct (tasks (remove t w) !! t) as [tk|] eqn:E; [|done].
  apply wf_append_running.
  - apply wf_set_tasks; [|done]. by rewrite length_insert.
  - done.
  - simpl. rewrite length_insert. by eapply lookup_lt_Some.
Qed.

Lemma wf_run g c w : wf w → wf (run g c w).2.
Proof.
  intros Hw. unfold run. simpl. apply wf_emit.
  apply (wf_append_running (length (tasks w))
           (set_tasks (tasks w ++ [mkTask c g (fresh_iterator g) 0]) w)).
  - apply wf_set_tasks; [|done]. rewrite length_app. lia.
  - intros Hin. destruct Hw as [_ Hb]. specialize (Hb _ Hin). lia.
  - simpl. rewrite length_app. simpl. lia.
Qed.

Lemma wf_do_call c w : wf w → wf (do_call c w).
Proof.
  intros Hw. destruct c; simpl.
  - by apply wf_remove.
  - by apply wf_restart.
  - done.
  - done.
  - by apply wf_run.
  - split; [constructor|]. intros t Ht. by apply not_elem_of_nil in Ht.
Qed.

Lemma wf_run_calls cs : ∀ w, wf w → wf (run_calls cs w).
Proof.
  induction cs as [|c cs IH]; intros w Hw; simpl; [done|].
  by apply IH, wf_do_call.
Qed.

Lemma wf_iterator_next t w : wf w → wf (iterator_next t w).2.
Proof.
  intros Hw. unfold iterator_next.
  destruct (tasks (emit (EvResume t) w) !! t) as [tk|]; [|done].
  destruct (next_step (iterator tk)) as [st it']. simpl.
  apply wf_run_calls, wf_set_tasks; [|done].
  simpl. by rewrite length_insert.
Qed.

Lemma wf_abort_on_error t e w : wf w → wf (abort_on_error t e w).
Proof.
  intros Hw. unfold abort_on_error.
  destruct (class_of _ t); [done|]. by apply wf_restart.
Qed.

(** Moving [t] from [running] to [waiting], lines 109-110. *)
Lemma wf_move t l w :
  wf w → py_remove t (running (sched w)) = Some l →
  wf (set_waiting (waiting (sched w) ++ [t]) (set_running l w)).
Proof.
  intros [Hnd Hb] (l1 & l2 & Hr & _ & ->)%py_remove_Some.
  unfold members in *. rewrite Hr in Hnd, Hb.
  assert ((l1 ++ l2) ++ waiting (sched w) ++ [t]
          ≡ₚ (l1 ++ t :: l2) ++ waiting (sched w)) as Hp.
  { rewrite (Permutation_app_comm _ [t]). simpl.
    rewrite <- Permutation_middle. simpl.
    by rewrite <- Permutation_middle. }
  split; simpl.
  - by rewrite Hp.
  - intros x Hx. apply Hb. by rewrite <- Hp.
Qed.

Lemma wf_resume_one t w : wf w → wf (world_of (resume_one t w)).
Proof.
  intros Hw. unfold resume_one.
  pose proof (wf_iterator_next t w Hw) as Hw1.
  destruct (iterator_next t w) as [o w1]. simpl in Hw1.
  destruct o as [m| | |e]; simpl.
  - destruct (decide (m = 0%Z)); [done|].
    destruct (py_remove t (running (sched w1))) as [l|] eqn:E; [|done].
    simpl. apply wf_set_tasks.
    + simpl. by rewrite length_alter.
    + by apply wf_move.
  - by apply wf_remove.
  - done.
  - by apply wf_abort_on_error, wf_remove.
Qed.

Lemma wf_resume_loop snapshot : ∀ w, wf w → wf (world_of (resume_loop snapshot w)).
Proof.
  induction snapshot as [|t rest IH]; intros w Hw; simpl; [done|].
  pose proof (wf_resume_one t w Hw) as H1.
  destruct (resume_one t w) as [w'|e w']; simpl in *; [by apply IH|done].
Qed.

Lemma merged_members w : members (merged w) ≡ₚ members w.
Proof.
  unfold members, merged. simpl. rewrite <- app_assoc.
  by rewrite filter_app_complement.
Qed.

Lemma wf_merged w : wf w → wf (merged w).
Proof.
  intros [Hnd Hb]. split.
  - by rewrite merged_members.
  - intros t Ht. rewrite merged_members in Ht. by apply Hb.
Qed.

Lemma wf_flag_merge w : wf w → wf (world_of (flag_merge w)).
Proof.
  intros Hw. rewrite flag_merge_total. simpl.
  destruct (decide _); [done|by apply wf_merged].
Qed.

Lemma wf_pass w : wf w → wf (world_of (pass w)).
Proof.
  intros Hw. unfold pass. pose proof (wf_flag_merge w Hw) as H1.
  destruct (flag_merge w) as [w1|e w1]; simpl in *; [|done].
  destruct (running (sched w1)) eqn:E; [done|].
  rewrite <- E. by apply wf_resume_loop.
Qed.

Lemma wf_loop n : ∀ w, wf w → wf (world_of (loop n w)).
Proof.
  induction n as [|n IH]; intros w Hw; simpl; [done|].
  pose proof (wf_pass w Hw) as H1.
  destruct (pass w) as [w'|e w']; simpl in *; [by apply IH|done].
Qed.

(** ** What each part of the loop logs *)

Lemma resumed_app evs1 evs2 : resumed (evs1 ++ evs2) = resumed evs1 ++ resumed evs2.
Proof. unfold resumed. apply omap_app. Qed.

Lemma resumed_side evs : Forall side_event evs → resumed evs = [].
Proof.
  induction 1 as [|ev evs Hev _ IH]; [done|].
  destruct ev; try done; exact IH.
Qed.

Lemma wakeup_side evs : Forall (eq EvWakeup) evs → Forall side_event evs.
Proof. intros H. eapply Forall_impl; [exact H|]. by intros ev <-. Qed.

Lemma sleep_not_side evs : Forall side_event evs → EvSleep ∉ evs.
Proof. intros H Hin. by apply (proj1 (Forall_forall _ _) H) in Hin. Qed.

Lemma events_since_app w w' evs : log w' = log w ++ evs → events_since w w' = evs.
Proof. intros H. unfold events_since. by rewrite H, drop_app_length. Qed.

Lemma log_restart t w : log (restart t w) = log w.
Proof. unfold restart. by destruct (tasks (remove t w) !! t). Qed.

Lemma log_do_call c w :
  ∃ evs, log (do_call c w) = log w ++ evs ∧ Forall (eq EvWakeup) evs.
Proof.
  destruct c; simpl.
  - exists []. by rewrite app_nil_r.
  - exists []. by rewrite log_restart, app_nil_r.
  - exists [EvWakeup]. split; [done|]. by repeat constructor.
  - exists []. by rewrite app_nil_r.
  - exists [EvWakeup]. split; [done|]. by repeat constructor.
  - exists []. by rewrite app_nil_r.
Qed.

Lemma log_run_calls cs : ∀ w,
  ∃ evs, log (run_calls cs w) = log w ++ evs ∧ Forall (eq EvWakeup) evs.
Proof.
  induction cs as [|c cs IH]; intros w; simpl.
  - exists []. by rewrite app_nil_r.
  - destruct (log_do_call c w) as (evs1 & H1 & F1).
    destruct (IH (do_call c w)) as (evs2 & H2 & F2).
    exists (evs1 ++ evs2). rewrite H2, H1, app_assoc. split; [done|].
    by apply Forall_app.
Qed.

Lemma log_iterator_next t w :
  ∃ evs, log (iterator_next t w).2 = log w ++ EvResume t :: evs
         ∧ Forall (eq EvWakeup) evs.
Proof.
  unfold iterator_next.
  destruct (tasks (emit (EvResume t) w) !! t) as [tk|].
  - destruct (next_step (iterator tk)) as [st it']. simpl.
    destruct (log_run_calls st.1
                (set_tasks (<[t:=set_iterator it' tk]> (tasks w))
                   (emit (EvResume t) w))) as (evs & H & F).
    exists evs. split; [|done]. simpl in *. rewrite H.
    by rewrite <- app_assoc.
  - exists []. done.
Qed.

Lemma log_abort_on_error t e w :
  log (abort_on_error t e w) = log w ++ [EvAbort t; EvPrint t e].
Proof.
  unfold abort_on_error. destruct (class_of _ t); simpl.
  - by rewrite <- app_assoc.
  - rewrite log_restart. simpl. by rewrite <- app_assoc.
Qed.

Lemma log_resume_one t w :
  ∃ evs, log (world_of (resume_one t w)) = log w ++ EvResume t :: evs
         ∧ Forall side_event evs.
Proof.
  unfold resume_one. destruct (log_iterator_next t w) as (evs & H & F).
  apply wakeup_side in F.
  destruct (iterator_next t w) as [o w1]. simpl in H.
  destruct o as [m| | |e]; simpl.
  - destruct (decide (m = 0%Z)); [by exists evs|].
    destruct (py_remove t (running (sched w1))); by exists evs.
  - by exists evs.
  - by exists evs.
  - exists (evs ++ [EvAbort t; EvPrint t e]).
    rewrite log_abort_on_error. simpl. rewrite H, <- app_assoc. split; [done|].
    apply Forall_app. split; [done|]. by repeat constructor.
Qed.

(** The resume loop resumes the tasks of its snapshot, in order, one after
    the other, up to the task that raises out of the loop, if any; it
    never sleeps. *)
Lemma log_resume_loop snapshot : ∀ w,
  ∃ evs, log (world_of (resume_loop snapshot w)) = log w ++ evs
         ∧ resumed evs `prefix_of` snapshot
         ∧ (∀ w', resume_loop snapshot w = Ok w' → resumed evs = snapshot)
         ∧ EvSleep ∉ evs.
Proof.
  induction snapshot as [|t rest IH]; intros w; simpl.
  - exists []. rewrite app_nil_r. split_and!; [done|done|done|].
    apply not_elem_of_nil.
  - destruct (log_resume_one t w) as (evs1 & H1 & F1).
    destruct (resume_one t w) as [w1|e w1]; simpl in *.
    + destruct (IH w1) as (evs2 & H2 & P2 & O2 & S2).
      exists (EvResume t :: evs1 ++ evs2). split_and!.
      * rewrite H2, H1. by rewrite <- app_assoc.
      * change (EvResume t :: evs1 ++ evs2) with ([EvResume t] ++ evs1 ++ evs2).
        rewrite !resumed_app, (resumed_side evs1 F1). simpl.
        by apply prefix_cons.
      * intros w' Hw'.
        change (EvResume t :: evs1 ++ evs2) with ([EvResume t] ++ evs1 ++ evs2).
        rewrite !resumed_app, (resumed_side evs1 F1). simpl.
        f_equal. by apply (O2 w').
      * rewrite not_elem_of_cons, not_elem_of_app. split; [done|].
        split; [by apply sleep_not_side|done].
    + exists (EvResume t :: evs1). split_and!.
      * done.
      * change (EvResume t :: evs1) with ([EvResume t] ++ evs1).
        rewrite resumed_app, (resumed_side evs1 F1). simpl.
        apply prefix_cons, prefix_nil.
      * done.
      * rewrite not_elem_of_cons. split; [done|by apply sleep_not_side].
Qed.

(** ** Leaving the loop *)

Lemma resume_loop_app pre : ∀ rest w,
  resume_loop (pre ++ rest) w
  = match resume_loop pre w with
    | Ok w' => resume_loop rest w'
    | Raised e w' => Raised e w'
    end.
Proof.
  induction pre as [|t pre IH]; intros rest w; simpl; [done|].
  destruct (resume_one t w); [apply IH|done].
Qed.

Lemma loop_add k : ∀ n w,
  loop (k + n) w
  = match loop k w with
    | Ok w' => loop n w'
    | Raised e w' => Raised e w'
    end.
Proof.
  induction k as [|k IH]; intros n w; simpl; [done|].
  destruct (pass w); [apply IH|done].
Qed.

Lemma resume_one_exit t w :
  (iterator_next t w).1 = RaiseExit →
  resume_one t w = Raised ExitScheduler (iterator_next t w).2.
Proof.
  unfold resume_one. destruct (iterator_next t w) as [o w1]. simpl.
  by intros ->.
Qed.

Lemma resume_one_failure t e w :
  (iterator_next t w).1 = RaiseOther e →
  resume_one t w
  = Ok (abort_on_error t e (remove t (iterator_next t w).2)).
Proof.
  unfold resume_one. destruct (iterator_next t w) as [o w1]. simpl.
  by intros ->.
Qed.

(** An exception raised by the step of one task of the snapshot leaves the
    pass, and the loop with it. *)
Lemma pass_raised w wm wp pre t rest e w1 :
  flag_merge w = Ok wm →
  running (sched wm) = pre ++ t :: rest →
  resume_loop pre wm = Ok wp →
  resume_one t wp = Raised e w1 →
  pass w = Raised e w1.
Proof.
  intros Hm Hr Hp H1. unfold pass. rewrite Hm.
  destruct (running (sched wm)) as [|u l] eqn:E.
  - by destruct pre.
  - rewrite Hr, resume_loop_app, Hp. simpl. by rewrite H1.
Qed.

Lemma loop_raised k n w0 w e w1 :
  loop k w0 = Ok w → pass w = Raised e w1 →
  loop (k + S n) w0 = Raised e w1.
Proof. intros Hk Hp. rewrite loop_add, Hk. simpl. by rewrite Hp. Qed.

Lemma length_tasks_restart t w : length (tasks (restart t w)) = length (tasks w).
Proof.
  unfold restart. destruct (tasks (remove t w) !! t); simpl; [|done].
  by rewrite length_insert.
Qed.

Lemma length_tasks_run_calls cs : ∀ w,
  length (tasks w) ≤ length (tasks (run_calls cs w)).
Proof.
  induction cs as [|c cs IH]; intros w; simpl; [done|].
  etrans; [|apply IH]. destruct c; simpl; try done.
  - by rewrite length_tasks_restart.
  - rewrite length_app. lia.
Qed.

Lemma iterator_next_allocated t w :
  (iterator_next t w).1 ≠ StopIteration →
  t < length (tasks (iterator_next t w).2).
Proof.
  unfold iterator_next. simpl.
  destruct (tasks w !! t) as [tk|] eqn:E; [|done].
  destruct (next_step (iterator tk)) as [st it']. simpl. intros _.
  eapply Nat.lt_le_trans; [|apply length_tasks_run_calls].
  simpl. rewrite length_insert. by eapply lookup_lt_Some.
Qed.

Lemma remove_absent t w : t ∉ members w → remove t w = w.
Proof.
  destruct w as [[r wt f c] ts lg]. unfold members, remove. simpl.
  rewrite not_elem_of_app. intros [Hr Hw].
  unfold set_waiting, set_running. simpl.
  by rewrite !remove_quiet_absent.
Qed.

(** ** Failures of a step *)

(** C2: when the step of [t] raises anything but [ExitScheduler] in a
    well-formed state, the failure hook is called on the state [w2] from
    which [t] has been removed: [t] is in neither list there, and the hook
    is logged after that.  After the hook no handle is held twice: a plain
    task is in neither list, a restarting task is exactly once in
    [running] (at its end) and not in [waiting].  The exception does not
    leave the loop: the resume loop goes on with the next task. *)
Theorem failure_removed_before_hook
    (w : World) (t : tid) (e : string) (rest : list tid) :
  wf w →
  (iterator_next t w).1 = RaiseOther e →
  let w1 := (iterator_next t w).2 in
  let w2 := remove t w1 in
  let w3 := abort_on_error t e w2 in
  resume_one t w = Ok w3 ∧
  (t ∉ running (sched w2)) ∧ (t ∉ waiting (sched w2)) ∧
  log w2 = log w1 ∧
  log w3 = log w2 ++ [EvAbort t; EvPrint t e] ∧
  wf w3 ∧
  waiting (sched w3) = waiting (sched w2) ∧
  running (sched w3)
  = running (sched w2)
    ++ match class_of w2 t with PlainTask => [] | RestartingTask => [t] end ∧
  resume_loop (t :: rest) w = resume_loop rest w3.
Proof.
  intros Hw Ho w1 w2 w3.
  assert (wf w1) as Hw1 by by apply wf_iterator_next.
  assert (t ∉ members w2) as Hg by by apply remove_gone.
  assert (wf w2) as Hw2 by by apply wf_remove.
  assert (resume_one t w = Ok w3) as H1 by by apply resume_one_failure.
  assert (t < length (tasks w2)) as Hlt.
  { apply (iterator_next_allocated t w). by rewrite Ho. }
  pose proof Hg as Hg'. unfold members in Hg'.
  apply not_elem_of_app in Hg' as [Hr Hwt].
  split_and!; try done.
  - apply log_abort_on_error.
  - by apply wf_abort_on_error.
  - unfold w3, abort_on_error. simpl.
    destruct (class_of _ t); [done|]. unfold restart.
    rewrite remove_absent by done.
    by destruct (tasks _ !! t).
  - unfold w3, abort_on_error.
    change (class_of (emit (EvAbort t) w2) t) with (class_of w2 t).
    destruct (class_of w2 t); simpl; [by rewrite app_nil_r|].
    unfold restart. rewrite remove_absent by done.
    destruct (tasks _ !! t) eqn:E; [done|].
    apply lookup_ge_None in E. simpl in *. lia.
  - simpl. by rewrite H1.
Qed.

Lemma failure_removed_before_hook_witness :
  wf one_failing ∧
  resume_one 0 one_failing
  = Ok (abort_on_error 0 "boom"
          (remove 0 (iterator_next 0 one_failing).2)) ∧
  running (sched (abort_on_error 0 "boom"
                    (remove 0 (iterator_next 0 one_failing).2))) = [0].
Proof.
  destruct (failure_removed_before_hook one_failing 0 "boom" [])
    as (H1 & _ & _ & _ & _ & _ & _ & H2 & _).
  - by apply (bool_decide_unpack _).
  - reflexivity.
  - split; [by apply (bool_decide_unpack _)|]. split; [exact H1|].
    rewrite H2. reflexivity.
Defined.

(** ** The hard exit *)

(** C5: when, after [k] completed turns of the loop, the step of a task
    [t] of the snapshot raises [ExitScheduler], the body of the resume loop
    raises it, the pass raises it without resuming the tasks after [t], and
    the loop, however long it was meant to run, ends with it.  Between the
    resume of [t] and the exit the log holds nothing but wake-ups: no
    failure hook is called. *)
Theorem exit_stops_loop
    (w0 w wm wp : World) (k n : nat) (pre rest : list tid) (t : tid) :
  loop k w0 = Ok w →
  flag_merge w = Ok wm →
  running (sched wm) = pre ++ t :: rest →
  resume_loop pre wm = Ok wp →
  (iterator_next t wp).1 = RaiseExit →
  let w1 := (iterator_next t wp).2 in
  resume_one t wp = Raised ExitScheduler w1 ∧
  resume_loop (t :: rest) wp = Raised ExitScheduler w1 ∧
  pass w = Raised ExitScheduler w1 ∧
  loop (k + S n) w0 = Raised ExitScheduler w1 ∧
  ∃ evs, log w1 = log wp ++ EvResume t :: evs ∧ Forall (eq EvWakeup) evs.
Proof.
  intros Hk Hm Hr Hp Ho w1.
  assert (resume_one t wp = Raised ExitScheduler w1) as H1
    by by apply resume_one_exit.
  assert (pass w = Raised ExitScheduler w1) as H2
    by by eapply pass_raised.
  split_and!; try done.
  - simpl. by rewrite H1.
  - by eapply loop_raised.
  - apply log_iterator_next.
Qed.

Lemma exit_stops_loop_witness :
  ∃ w1, loop (0 + 5) idle_then_exit = Raised ExitScheduler w1.
Proof.
  eexists.
  refine (proj1 (proj2 (proj2 (proj2
    (exit_stops_loop idle_then_exit idle_then_exit idle_then_exit
       (world_of (resume_loop [0] idle_then_exit)) 0 4 [0] [] 1
       _ _ _ _ _))))); reflexivity.
Defined.

(** C10, as stated, fails: task 0 stops itself and then raises
    [ExitScheduler]; the signal leaves the loop with the task in neither
    list, although it was in [running] when the loop started. *)
Lemma exit_after_stop_counterexample :
  ∃ w1, loop 1 one_stopping_then_exiting = Raised ExitScheduler w1 ∧
        running (sched one_stopping_then_exiting) = [0] ∧
        running (sched w1) = [] ∧ waiting (sched w1) = [] ∧
        0 ∉ running (sched w1).
Proof.
  eexists. split; [reflexivity|]. split_and!; try reflexivity.
  vm_compute. intros H. apply list_elem_of_In in H. exact H.
Qed.

(** C10, amended: when [ExitScheduler] leaves the loop, the scheduler
    cleans nothing up.  The state handed out by the pass and by the loop is
    the state [w1] in which the signal was raised: the state [wp] in which
    the step of the raising task [t] started, with the resume logged, the
    generator instance of [t] advanced, and the scheduler calls of that
    very step carried out; the scheduler itself removes no task and resets
    nothing.  When the step made no call, [w1] has the two lists, the
    pending flags, the flag counter and every wait mask of [wp], so [t] is
    still in [running] if it was there when its step started. *)
Theorem exit_leaves_state
    (w wm wp : World) (n : nat) (pre rest : list tid) (t : tid) (tk : Task) :
  flag_merge w = Ok wm →
  running (sched wm) = pre ++ t :: rest →
  resume_loop pre wm = Ok wp →
  tasks wp !! t = Some tk →
  (iterator_next t wp).1 = RaiseExit →
  let st := (next_step (iterator tk)).1 in
  let it' := (next_step (iterator tk)).2 in
  let w1 := run_calls st.1
              (set_tasks (<[t := set_iterator it' tk]> (tasks wp))
                 (emit (EvResume t) wp)) in
  st.2 = RaiseExit ∧
  pass w = Raised ExitScheduler w1 ∧
  loop (S n) w = Raised ExitScheduler w1 ∧
  (st.1 = [] →
   sched w1 = sched wp ∧
   (∀ u, mask_of w1 u = mask_of wp u) ∧
   (t ∈ running (sched wp) → t ∈ running (sched w1))).
Proof.
  intros Hm Hr Hp Htk Ho st it' w1.
  assert (iterator_next t wp = (st.2, w1)) as Hnext.
  { unfold iterator_next, w1, st, it'. simpl. rewrite Htk.
    by destruct (next_step (iterator tk)) as [[cs o] it'']. }
  rewrite Hnext in Ho. simpl in Ho.
  assert (pass w = Raised ExitScheduler w1) as H2.
  { eapply pass_raised; [done..|]. unfold resume_one. by rewrite Hnext, Ho. }
  split; [done|]. split; [done|].
  split; [exact (loop_raised 0 n w w _ _ eq_refl H2)|].
  intros Hcs. unfold w1. rewrite Hcs. simpl.
  split; [by destruct wp|]. split; [|done].
  intros u. unfold mask_of. simpl.
  destruct (decide (u = t)) as [->|Hne].
  - rewrite list_lookup_insert_eq by by eapply lookup_lt_Some. by rewrite Htk.
  - by rewrite list_lookup_insert_ne.
Qed.

Lemma exit_leaves_state_witness :
  ∃ w1, loop 3 idle_then_exit = Raised ExitScheduler w1 ∧
        running (sched w1) = [0; 1] ∧ 1 ∈ running (sched w1).
Proof.
  pose proof (exit_leaves_state idle_then_exit idle_then_exit
                (world_of (resume_loop [0] idle_then_exit)) 2 [0] [] 1
                (mkTask PlainTask exit_gen (fresh_iterator exit_gen) 0)
                eq_refl eq_refl eq_refl eq_refl eq_refl) as (_ & _ & H & H3).
  eexists. split; [exact H|].
  destruct (H3 eq_refl) as (Hs & _ & Hin).
  split; [by rewrite Hs|]. apply Hin. vm_compute.
  apply list_elem_of_In. simpl. tauto.
Defined.

(** ** One pass *)

Lemma count_NoDup (t : tid) (l : list tid) :
  NoDup l →
  length (filter (λ u, u = t) l) = if decide (t ∈ l) then 1 else 0.
Proof.
  induction 1 as [|u l Hu Hnd IH].
  - rewrite filter_nil. rewrite decide_False; [done|apply not_elem_of_nil].
  - rewrite filter_cons. destruct (decide (u = t)) as [->|Hne].
    + simpl. rewrite IH, decide_False by done.
      rewrite decide_True; [done|by left].
    + rewrite IH. destruct (decide (t ∈ l)) as [Hin|Hnin].
      * rewrite decide_True; [done|by right].
      * rewrite decide_False; [done|].
        apply not_elem_of_cons. split; [congruence|done].
Qed.

Lemma log_flag_merge w :
  ∃ evs, log (world_of (flag_merge w)) = log w ++ evs ∧ (EvSleep ∉ evs)
         ∧ resumed evs = [].
Proof.
  rewrite flag_merge_total. simpl. destruct (decide _).
  - exists []. rewrite app_nil_r. split_and!; [done| |done]. apply not_elem_of_nil.
  - exists (EvVisit <$> waiting (sched w)). split_and!; [done| |].
    + by intros (u & Hu & _)%list_elem_of_fmap.
    + induction (waiting (sched w)); [done|]. by simpl.
Qed.

(** *** The generator instance of a task across the turns of a pass *)















(** ** Sleeping *)

(** C9, as stated, fails: a single task returns at its first step; the pass
    ends with both lists empty and [sleep] was not called in it. *)
Lemma no_sleep_after_last_task :
  ∃ w', pass one_done = Ok w' ∧
        running (sched w') = [] ∧ waiting (sched w') = [] ∧
        log w' = [EvWakeup; EvResume 0] ∧ EvSleep ∉ log w'.
Proof.
  eexists. split; [reflexivity|]. split_and!; try reflexivity.
  vm_compute. intros H. apply list_elem_of_In in H. simpl in H.
  intuition discriminate.
Qed.

(** C9, amended: [sleep] is called in a pass exactly when [running] is
    empty after the flag step.  Then the resume step is skipped and the
    call of [sleep] is the last thing the pass does.  When [running] is not
    empty after the flag step, the pass is the resume loop over it and does
    not call [sleep], also when the resume step empties [running]. *)
Theorem sleep_when_nothing_runnable (w wm : World) :
  flag_merge w = Ok wm →
  (running (sched wm) = [] →
   pass w = Ok (sleep wm) ∧
   ∃ evs, log (sleep wm) = log w ++ evs ++ [EvSleep] ∧ EvSleep ∉ evs) ∧
  (running (sched wm) ≠ [] →
   pass w = resume_loop (running (sched wm)) wm ∧
   ∃ evs, log (world_of (pass w)) = log w ++ evs ∧ EvSleep ∉ evs).
Proof.
  intros Hm.
  destruct (log_flag_merge w) as (evs0 & Hl0 & Hs0 & _). rewrite Hm in Hl0.
  simpl in Hl0. unfold pass. rewrite Hm. split.
  - intros ->. split; [done|]. exists evs0. simpl. by rewrite Hl0, app_assoc.
  - intros Hne. destruct (running (sched wm)) as [|u l] eqn:E; [done|].
    split; [done|].
    destruct (log_resume_loop (u :: l) wm) as (evs & H1 & _ & _ & H4).
    exists (evs0 ++ evs). rewrite H1, Hl0, app_assoc. split; [done|].
    by apply not_elem_of_app.
Qed.

Lemma sleep_when_nothing_runnable_witness :
  pass initial = Ok (sleep initial) ∧
  pass one_done = resume_loop [0] one_done.
Proof.
  destruct (sleep_when_nothing_runnable initial initial eq_refl) as [H1 _].
  destruct (sleep_when_nothing_runnable one_done one_done eq_refl) as [_ H2].
  split; [apply H1; reflexivity|apply H2; discriminate].
Defined.

(** ** Stopping a task from its own step *)

(** C8 is not met by the code.  Task 0 calls [stop] on itself and then
    yields the mask 1: the unguarded [self.running.remove(task)] of line 109
    finds no such element and its [ValueError] leaves the loop. *)
Theorem stop_then_wait_raises (n : nat) :
  pass one_stopping_itself
  = Raised ValueError (iterator_next 0 one_stopping_itself).2 ∧
  loop (S n) one_stopping_itself
  = Raised ValueError (iterator_next 0 one_stopping_itself).2 ∧
  running (sched (iterator_next 0 one_stopping_itself).2) = [] ∧
  waiting (sched (iterator_next 0 one_stopping_itself).2) = [].
Proof.
  assert (pass one_stopping_itself
          = Raised ValueError (iterator_next 0 one_stopping_itself).2) as H
    by reflexivity.
  split; [done|]. split; [|done].
  exact (loop_raised 0 n _ _ _ _ eq_refl H).
Qed.

(** ** Restarting a task that keeps failing *)

Lemma iterator_next_plain t w tk o it' :
  tasks w !! t = Some tk →
  next_step (iterator tk) = (([], o), it') →
  iterator_next t w
  = (o, set_tasks (<[t := set_iterator it' tk]> (tasks w)) (emit (EvResume t) w)).
Proof.
  intros Htk Hn. unfold iterator_next. simpl. by rewrite Htk, Hn.
Qed.


Lemma next_step_quiet tk :
  code (iterator tk) = generator tk → quiet (generator tk) →
  ∃ o it', next_step (iterator tk) = (([], o), it') ∧ o ≠ RaiseExit
           ∧ code it' = generator tk.
Proof.
  intros Hc Hq. unfold next_step. destruct (exhausted (iterator tk)).
  - by exists StopIteration, (iterator tk).
  - destruct (Hq (pc (iterator tk))) as [H1 H2]. rewrite Hc.
    destruct (generator tk (pc (iterator tk))) as [cs o]. simpl in *. subst cs.
    by eexists _, _.
Qed.




Lemma abort_on_error_plain t e w tk :
  tasks w !! t = Some tk → cls tk = PlainTask →
  abort_on_error t e w = emit (EvPrint t e) (emit (EvAbort t) w).
Proof.
  intros Htk Hc. unfold abort_on_error, class_of. simpl.
  rewrite Htk. simpl. by rewrite Hc.
Qed.

Lemma abort_on_error_restarting t e w tk :
  tasks w !! t = Some tk → cls tk = RestartingTask →
  abort_on_error t e w = restart t (emit (EvPrint t e) (emit (EvAbort t) w)).
Proof.
  intros Htk Hc. unfold abort_on_error, class_of. simpl.
  rewrite Htk. simpl. by rewrite Hc.
Qed.

Lemma restart_fields t w tk :
  tasks w !! t = Some tk →
  running (sched (restart t w)) = remove_quiet t (running (sched w)) ++ [t] ∧
  waiting (sched (restart t w)) = remove_quiet t (waiting (sched w)) ∧
  tasks (restart t w) = <[t := renew tk]> (tasks w).
Proof. intros Htk. unfold restart. simpl. by rewrite Htk. Qed.

Lemma py_remove_keeps x y l l' :
  py_remove x l = Some l' → y ≠ x → y ∈ l → y ∈ l'.
Proof.
  intros (l1 & l2 & -> & _ & ->)%py_remove_Some Hne.
  rewrite !elem_of_app, elem_of_cons. intros [?|[?|?]]; tauto.
Qed.

Lemma resume_one_plain u w tku o it' :
  wf w → tasks w !! u = Some tku →
  next_step (iterator tku) = (([], o), it') → o ≠ RaiseExit →
  u ∈ running (sched w) →
  ∃ w' tk',
    resume_one u w = Ok w' ∧
    (∀ x, x ≠ u → tasks w' !! x = tasks w !! x) ∧
    tasks w' !! u = Some tk' ∧
    cls tk' = cls tku ∧ generator tk' = generator tku ∧
    (iterator tk' = it' ∨ iterator tk' = fresh_iterator (generator tku)) ∧
    ((∃ e, o = RaiseOther e) → cls tku = RestartingTask →
     iterator tk' = fresh_iterator (generator tku) ∧ u ∈ running (sched w')) ∧
    (∀ x, x ≠ u → x ∈ running (sched w) → x ∈ running (sched w')) ∧
    log w' = log w ++ EvResume u ::
               match o with
               | RaiseOther e => [EvAbort u; EvPrint u e]
               | _ => []
               end.
Proof.
  intros Hw Htk Hn Ho Hu.
  pose proof (lookup_lt_Some _ _ _ Htk) as Hlt.
  pose proof (wf_resume_one u w Hw) as Hw'.
  unfold resume_one in *. rewrite (iterator_next_plain u w tku o it' Htk Hn) in *.
  set (w1 := set_tasks (<[u:=set_iterator it' tku]> (tasks w)) (emit (EvResume u) w)) in *.
  assert (tasks w1 !! u = Some (set_iterator it' tku)) as Hu1
    by by apply list_lookup_insert_eq.
  assert (∀ x, x ≠ u → tasks w1 !! x = tasks w !! x) as Hx1.
  { intros x Hx. simpl. by rewrite list_lookup_insert_ne. }
  destruct o as [m| | |e]; [| |done|].
  - destruct (decide (m = 0%Z)) as [->|Hm].
    + exists w1, (set_iterator it' tku). split_and!; try done; [by left|].
      by intros [e [=]].
    + destruct (py_remove_elem u (running (sched w1)) Hu) as [l Hl].
      rewrite Hl. eexists _, (set_mask m (set_iterator it' tku)).
      split; [reflexivity|]. simpl. split_and!; try done.
      * intros x Hx. by rewrite list_lookup_alter_ne, list_lookup_insert_ne.
      * by rewrite list_lookup_alter_eq, list_lookup_insert_eq.
      * by left.
      * by intros [e [=]].
      * intros x Hx Hin. by eapply py_remove_keeps.
  - exists (remove u w1), (set_iterator it' tku).
    split_and!; try done; [by left|by intros [e [=]]|].
    intros x Hx Hin. by apply remove_quiet_other.
  - destruct (cls tku) eqn:Hc.
    + exists (emit (EvPrint u e) (emit (EvAbort u) (remove u w1))),
        (set_iterator it' tku).
      split; [by rewrite (abort_on_error_plain u e _ (set_iterator it' tku))|].
      split_and!; try done; [by left| |simpl; by rewrite <- !app_assoc].
      intros x Hx Hin. by apply remove_quiet_other.
    + exists (restart u (emit (EvPrint u e) (emit (EvAbort u) (remove u w1)))),
        (renew (set_iterator it' tku)).
      split; [by rewrite (abort_on_error_restarting u e _ (set_iterator it' tku))|].
      destruct (restart_fields u
                  (emit (EvPrint u e) (emit (EvAbort u) (remove u w1)))
                  (set_iterator it' tku) Hu1) as (Hr & _ & Hts).
      rewrite Hr, Hts, log_restart. split_and!.
      all: try done.
      * intros x Hx. rewrite list_lookup_insert_ne by done. by apply Hx1.
      * apply list_lookup_insert_eq. simpl. by rewrite length_insert.
      * by right.
      * intros _ _. split; [done|]. apply elem_of_app. right. by left.
      * intros x Hx Hin. apply elem_of_app. left.
        apply remove_quiet_other; [done|]. simpl.
        by apply remove_quiet_other.
      * simpl. by rewrite <- !app_assoc.
Qed.









(** * Further properties of the scheduler *)

(** ** Histories *)

Lemma wf_do_op o w : wf w → wf (do_op o w).
Proof. destruct o; simpl; [apply wf_do_call|apply wf_pass]. Qed.

Lemma wf_exec ops : ∀ w, wf w → wf (exec ops w).
Proof.
  induction ops as [|o ops IH]; intros w Hw; simpl; [done|].
  by apply IH, wf_do_op.
Qed.

(** X1: whatever methods were called and however many turns of the loop
    were made (completed or left by an exception) since the scheduler was
    created, no task is held twice: not twice in one list, and never in
    [running] and [waiting] at once; and every handle held denotes a
    task. *)
Theorem reachable_no_duplicate (ops : list op) (t : tid) :
  let w := exec ops initial in
  NoDup (running (sched w) ++ waiting (sched w)) ∧
  ¬ (t ∈ running (sched w) ∧ t ∈ waiting (sched w)) ∧
  (t ∈ running (sched w) ++ waiting (sched w) → is_Some (tasks w !! t)).
Proof.
  pose proof (wf_exec ops initial wf_initial) as [Hnd Hb]. simpl.
  split_and!; [done| |].
  - intros [Hr Hw]. apply NoDup_app in Hnd as (_ & Hd & _). by apply (Hd t).
  - intros Ht. by apply lookup_lt_is_Some, Hb.
Qed.

(** ** [stop] *)

Lemma filter_all {A} (P : A → Prop) `{∀ x, Decision (P x)} (l : list A) :
  (∀ x, x ∈ l → P x) → filter P l = l.
Proof.
  induction l as [|x l IH]; intros HP; [done|].
  rewrite filter_cons_True by (apply HP; by left).
  f_equal. apply IH. intros y Hy. apply HP. by right.
Qed.

Lemma filter_none {A} (P : A → Prop) `{∀ x, Decision (P x)} (l : list A) :
  (∀ x, x ∈ l → ¬ P x) → filter P l = [].
Proof.
  induction l as [|x l IH]; intros HP; [done|].
  rewrite filter_cons_False by (apply HP; by left).
  apply IH. intros y Hy. apply HP. by right.
Qed.

Lemma remove_quiet_filter x l :
  NoDup l → remove_quiet x l = filter (λ y, y ≠ x) l.
Proof.
  intros Hnd. unfold remove_quiet.
  destruct (py_remove x l) as [l'|] eqn:E; simpl.
  - apply py_remove_Some in E as (l1 & l2 & -> & Hx & ->).
    apply NoDup_app in Hnd as (_ & _ & [Hx2 _]%NoDup_cons).
    rewrite filter_app, filter_cons_False by (by intros H; apply H).
    rewrite !filter_all; [done| |]; intros y Hy ->; done.
  - apply py_remove_None in E. symmetry. apply filter_all. by intros y Hy ->.
Qed.

(** X2: in a state without duplicates, [stop] deletes the task from both
    lists and keeps every other task where it was, in the same order; it
    touches nothing else, and a second [stop] changes nothing. *)
Theorem stop_removes_once (w : World) (t : tid) :
  wf w →
  running (sched (stop t w)) = filter (λ u, u ≠ t) (running (sched w)) ∧
  waiting (sched (stop t w)) = filter (λ u, u ≠ t) (waiting (sched w)) ∧
  (t ∉ running (sched (stop t w))) ∧ (t ∉ waiting (sched (stop t w))) ∧
  flags (sched (stop t w)) = flags (sched w) ∧
  tasks (stop t w) = tasks w ∧ log (stop t w) = log w ∧
  stop t (stop t w) = stop t w.
Proof.
  intros Hw. pose proof Hw as [Hnd _].
  apply NoDup_app in Hnd as (Hr & _ & Hwt).
  pose proof (remove_gone t w Hw) as Hg.
  pose proof Hg as [Hgr Hgw]%not_elem_of_app.
  split_and!; try done.
  - by apply remove_quiet_filter.
  - by apply remove_quiet_filter.
  - by apply remove_absent.
Qed.

Lemma stop_removes_once_witness :
  running (sched (stop 0 failing_among_quiet)) = [1] ∧
  stop 0 (stop 0 failing_among_quiet) = stop 0 failing_among_quiet.
Proof.
  destruct (stop_removes_once failing_among_quiet 0)
    as (H1 & _ & _ & _ & _ & _ & _ & H2).
  - by apply (bool_decide_unpack _).
  - split; [rewrite H1; reflexivity|exact H2].
Defined.

(** ** Signals *)

Lemma woken_zero ts t : ¬ woken 0 ts t.
Proof. unfold woken. rewrite Z.land_0_l. tauto. Qed.

(** The lists after the flag step, whether a flag is pending or not. *)
Lemma flag_merge_lists w :
  ∃ w', flag_merge w = Ok w' ∧
        running (sched w')
        = running (sched w)
          ++ filter (woken (flags (sched w)) (tasks w)) (waiting (sched w)) ∧
        waiting (sched w')
        = filter (λ t, ¬ woken (flags (sched w)) (tasks w) t)
            (waiting (sched w)) ∧
        flags (sched w') = 0%Z ∧ tasks w' = tasks w ∧
        flag_counter (sched w') = flag_counter (sched w).
Proof.
  rewrite flag_merge_total. destruct (decide _) as [Hf|Hf].
  - exists w. rewrite Hf. split; [done|].
    rewrite filter_none by (intros; apply woken_zero).
    rewrite filter_all by (intros; apply woken_zero).
    by rewrite app_nil_r.
  - by exists (merged w).
Qed.

Lemma land_lor_nonzero a b m :
  Z.land (Z.lor a b) m ≠ 0%Z ↔ Z.land a m ≠ 0%Z ∨ Z.land b m ≠ 0%Z.
Proof.
  rewrite Z.land_lor_distr_l, Z.lor_eq_0_iff.
  destruct (decide (Z.land a m = 0%Z)), (decide (Z.land b m = 0%Z)); tauto.
Qed.

(** X3: signals accumulate by OR until the next flag step: signalling the
    same flags twice is the same as once, and after [set_flag a] and
    [set_flag b] the flag step wakes, in waiting order, the tasks whose
    mask meets the flags pending before, [a] or [b], leaves the others
    waiting, and resets the pending flags. *)
Theorem signals_accumulate (w : World) (a b : Z) :
  let w2 := set_flag b (set_flag a w) in
  flags (sched w2) = Z.lor (Z.lor (flags (sched w)) a) b ∧
  flags (sched (set_flag a (set_flag a w))) = flags (sched (set_flag a w)) ∧
  ∃ w', flag_merge w2 = Ok w' ∧
        running (sched w')
        = running (sched w)
          ++ filter (λ t, Z.land (flags (sched w)) (mask_of w t) ≠ 0%Z
                          ∨ Z.land a (mask_of w t) ≠ 0%Z
                          ∨ Z.land b (mask_of w t) ≠ 0%Z)
               (waiting (sched w)) ∧
        waiting (sched w')
        = filter (λ t, ¬ (Z.land (flags (sched w)) (mask_of w t) ≠ 0%Z
                          ∨ Z.land a (mask_of w t) ≠ 0%Z
                          ∨ Z.land b (mask_of w t) ≠ 0%Z))
            (waiting (sched w)) ∧
        flags (sched w') = 0%Z.
Proof.
  simpl. split; [done|]. split.
  { by rewrite <- Z.lor_assoc, Z.lor_diag. }
  destruct (flag_merge_lists (set_flag b (set_flag a w)))
    as (w' & H1 & Hr & Hwt & Hf & _).
  exists w'. split; [done|]. simpl in Hr, Hwt. rewrite Hr, Hwt.
  split_and!; [| |done].
  - f_equal. apply list_filter_iff. intros t. unfold woken, mask_of.
    rewrite !land_lor_nonzero. tauto.
  - apply list_filter_iff. intros t. unfold woken, mask_of.
    rewrite !land_lor_nonzero. tauto.
Qed.

Lemma flag_merge_no_waiter w :
  (∀ t, t ∈ waiting (sched w) →
        Z.land (flags (sched w)) (mask_of w t) = 0%Z) →
  ∃ w', flag_merge w = Ok w' ∧
        running (sched w') = running (sched w) ∧
        waiting (sched w') = waiting (sched w) ∧
        tasks w' = tasks w ∧
        flags (sched w') = 0%Z.
Proof.
  intros Hno.
  destruct (flag_merge_lists w) as (w' & H1 & Hr & Hwt & Hf & Hts & _).
  exists w'. rewrite Hr, Hwt. split_and!; try done.
  - rewrite filter_none; [by rewrite app_nil_r|].
    intros t Ht Hw. by apply Hw, Hno.
  - apply filter_all. intros t Ht Hw. by apply Hw, Hno.
Qed.

(** X4: a signal that no waiting task is waiting for is lost at the next
    flag step: the step moves no task and resets the pending flags. *)
Theorem signal_without_waiter_dropped (w : World) :
  (∀ t, t ∈ waiting (sched w) →
        Z.land (flags (sched w)) (mask_of w t) = 0%Z) →
  ∃ w', flag_merge w = Ok w' ∧
        running (sched w') = running (sched w) ∧
        waiting (sched w') = waiting (sched w) ∧
        tasks w' = tasks w ∧
        flags (sched w') = 0%Z.
Proof.
  intros Hno.
  destruct (flag_merge_lists w) as (w' & H1 & Hr & Hwt & Hf & Hts & _).
  exists w'. rewrite Hr, Hwt. split_and!; try done.
  - rewrite filter_none; [by rewrite app_nil_r|].
    intros t Ht Hw. by apply Hw, Hno.
  - apply filter_all. intros t Ht Hw. by apply Hw, Hno.
Qed.

Lemma signal_without_waiter_dropped_witness :
  ∃ w', flag_merge three_waiting_other = Ok w' ∧
        waiting (sched w') = [0; 1; 2] ∧ flags (sched w') = 0%Z.
Proof.
  destruct (signal_without_waiter_dropped three_waiting_other)
    as (w' & H1 & _ & H2 & _ & H3).
  - intros t Ht. apply list_elem_of_In in Ht. simpl in Ht.
    destruct Ht as [<-|[<-|[<-|[]]]]; reflexivity.
  - exists w'. split; [exact H1|]. split; [exact H2|exact H3].
Defined.

(** ** Flags from [new_flag] *)

Lemma shiftl_1_disjoint (i j : nat) :
  i ≠ j → Z.land (Z.shiftl 1 (Z.of_nat i)) (Z.shiftl 1 (Z.of_nat j)) = 0%Z.
Proof.
  intros Hne. rewrite !Z.shiftl_1_l. apply Z.bits_inj'. intros k Hk.
  rewrite Z.land_spec, !Z.pow2_bits_eqb, Z.bits_0 by lia.
  destruct (Z.eqb_spec (Z.of_nat i) k), (Z.eqb_spec (Z.of_nat j) k);
    try done. lia.
Qed.

(** X5: two flags handed out by different calls of [new_flag] share no
    bit, so a task that waits on one of them alone is left waiting by the
    flag step when only the other one was signalled. *)
Theorem new_flags_do_not_cross_wake
    (n i j : nat) (fi fj : Z) (w : World) (t : tid) :
  (new_flags n initial).1 !! i = Some fi →
  (new_flags n initial).1 !! j = Some fj →
  i ≠ j →
  Z.land fi fj = 0%Z ∧
  (flags (sched w) = 0%Z → mask_of w t = fi → t ∈ waiting (sched w) →
   ∃ w', flag_merge (set_flag fj w) = Ok w' ∧
         t ∈ waiting (sched w') ∧ (t ∉ filter (woken fj (tasks w)) (waiting (sched w)))).
Proof.
  rewrite new_flags_fst. simpl. rewrite !list_lookup_fmap.
  intros Hi Hj Hne.
  destruct (seq 0 n !! i) as [i'|] eqn:Ei; [|done].
  destruct (seq 0 n !! j) as [j'|] eqn:Ej; [|done].
  apply lookup_seq in Ei as [-> _]. apply lookup_seq in Ej as [-> _].
  simpl in *. injection Hi as <-. injection Hj as <-.
  assert (Z.land (Z.shiftl 1 (Z.of_nat i)) (Z.shiftl 1 (Z.of_nat j)) = 0%Z)
    as Hd by by apply shiftl_1_disjoint.
  split; [done|]. intros Hf Hm Ht.
  assert (¬ woken (Z.shiftl 1 (Z.of_nat j)) (tasks w) t) as Hnw.
  { unfold woken. fold (mask_of w t). rewrite Hm, Z.land_comm. tauto. }
  destruct (flag_merge_lists (set_flag (Z.shiftl 1 (Z.of_nat j)) w))
    as (w' & H1 & _ & Hwt & _).
  exists w'. split; [done|]. simpl in Hwt. rewrite Hf in Hwt. simpl in Hwt.
  rewrite Hwt. split.
  - by apply list_elem_of_filter.
  - by intros [? _]%list_elem_of_filter.
Qed.

Lemma new_flags_do_not_cross_wake_witness :
  Z.land 1 2 = 0%Z ∧
  ∃ w', flag_merge (set_flag 2 (set_flags 0 three_waiting_other)) = Ok w' ∧
        0 ∈ waiting (sched w').
Proof.
  destruct (new_flags_do_not_cross_wake 3 0 1 1 2
              (set_flags 0 three_waiting_other) 0 eq_refl eq_refl)
    as [H1 H2]; [discriminate|].
  split; [exact H1|].
  destruct H2 as (w' & H3 & H4 & _); [reflexivity|reflexivity| |].
  - apply list_elem_of_In. simpl. tauto.
  - exists w'. split; [exact H3|exact H4].
Defined.

(** ** The order of a pass *)

(** The log of a pass, completed or not. *)
Lemma log_pass w :
  ∃ wm evs, flag_merge w = Ok wm ∧
            log (world_of (pass w)) = log w ++ evs ∧
            resumed evs `prefix_of` running (sched wm) ∧
            (∀ w', pass w = Ok w' → resumed evs = running (sched wm)).
Proof.
  destruct (log_flag_merge w) as (evs0 & Hl0 & _ & Hr0).
  destruct (flag_merge_lists w) as (wm & Hm & _).
  rewrite Hm in Hl0. simpl in Hl0. unfold pass. rewrite Hm.
  destruct (running (sched wm)) as [|u l] eqn:E.
  - exists wm, (evs0 ++ [EvSleep]). rewrite E. split; [done|]. simpl.
    rewrite Hl0, resumed_app, Hr0, app_assoc. by split_and!.
  - destruct (log_resume_loop (u :: l) wm) as (evs & H1 & H2 & H3 & _).
    exists wm, (evs0 ++ evs). rewrite E. split; [done|].
    rewrite H1, Hl0, resumed_app, Hr0, app_assoc. by split_and!.
Qed.

(** X6: a pass that runs to its end resumes the tasks that were runnable
    when it started, in their order, and then, in the same pass, the
    waiting tasks whose mask meets the pending flags, in waiting order;
    it resumes no other task. *)
Theorem pass_resume_order (w w' : World) :
  pass w = Ok w' →
  resumed (events_since w w')
  = running (sched w)
    ++ filter (λ t, Z.land (flags (sched w)) (mask_of w t) ≠ 0%Z)
         (waiting (sched w)).
Proof.
  intros Hp. destruct (log_pass w) as (wm & evs & Hm & Hl & _ & Hr).
  rewrite Hp in Hl. simpl in Hl. rewrite (events_since_app w w' evs Hl).
  rewrite (Hr w' Hp).
  destruct (flag_merge_lists w) as (wm' & Hm' & Hrun & _).
  rewrite Hm in Hm'. injection Hm' as <-. done.
Qed.

Lemma pass_resume_order_witness :
  ∃ w', pass three_waiting = Ok w' ∧
        resumed (events_since three_waiting w') = [0; 2].
Proof.
  eexists. split; [reflexivity|].
  rewrite (pass_resume_order three_waiting _ eq_refl). reflexivity.
Defined.

(** X7: in a state without duplicates, a waiting task whose mask meets
    none of the pending flags is not resumed in the pass, whether the pass
    runs to its end or is left by an exception. *)
Theorem waiting_not_resumed (w : World) (t : tid) :
  wf w →
  t ∈ waiting (sched w) →
  Z.land (flags (sched w)) (mask_of w t) = 0%Z →
  t ∉ resumed (events_since w (world_of (pass w))).
Proof.
  intros [Hnd _] Ht Hm. destruct (log_pass w) as (wm & evs & Hmg & Hl & Hpre & _).
  rewrite (events_since_app w _ evs Hl).
  destruct (flag_merge_lists w) as (wm' & Hm' & Hrun & _).
  rewrite Hmg in Hm'. injection Hm' as <-.
  intros Hin. destruct Hpre as [k Hk]. 
  assert (t ∈ running (sched wm)) as Hin'.
  { rewrite Hk. apply elem_of_app. by left. }
  rewrite Hrun in Hin'. apply elem_of_app in Hin' as [Hin'|Hin'].
  - apply NoDup_app in Hnd as (_ & Hd & _). by apply (Hd t).
  - apply list_elem_of_filter in Hin' as [Hw _]. by apply Hw.
Qed.

Lemma waiting_not_resumed_witness :
  1 ∉ resumed (events_since three_waiting (world_of (pass three_waiting))).
Proof.
  apply (waiting_not_resumed three_waiting 1).
  - by apply (bool_decide_unpack _).
  - apply list_elem_of_In. simpl. tauto.
  - reflexivity.
Defined.

(** ** What the yielded value does *)

Lemma mask_of_alter_eq m t w :
  t < length (tasks w) →
  mask_of (set_tasks (alter (set_mask m) t (tasks w)) w) t = m.
Proof.
  intros Hlt. unfold mask_of. simpl. rewrite list_lookup_alter_eq.
  destruct (lookup_lt_is_Some_2 _ _ Hlt) as [tk ->]. done.
Qed.

Lemma mask_of_alter_ne m t u w :
  u ≠ t →
  mask_of (set_tasks (alter (set_mask m) t (tasks w)) w) u = mask_of w u.
Proof.
  intros Hne. unfold mask_of. simpl. by rewrite list_lookup_alter_ne.
Qed.

(** X8: a step that yields a falsy value leaves the task where the step
    left it.  A step that yields a mask other than 0, in a state without
    duplicates and with the task still in [running], moves the task from
    [running] to the end of [waiting] and stores the mask in it; the other
    tasks keep their place, their order and their mask. *)
Theorem yield_parks_task (w : World) (t : tid) (m : Z) :
  wf w →
  (iterator_next t w).1 = Yield m →
  let w1 := (iterator_next t w).2 in
  (m = 0%Z → resume_one t w = Ok w1) ∧
  (m ≠ 0%Z → t ∈ running (sched w1) →
   ∃ w', resume_one t w = Ok w' ∧
         running (sched w') = filter (λ u, u ≠ t) (running (sched w1)) ∧
         waiting (sched w') = waiting (sched w1) ++ [t] ∧
         mask_of w' t = m ∧
         (∀ u, u ≠ t → mask_of w' u = mask_of w1 u) ∧
         log w' = log w1).
Proof.
  intros Hw Ho w1.
  assert (wf w1) as Hw1 by by apply wf_iterator_next.
  assert (t < length (tasks w1)) as Hlt.
  { apply iterator_next_allocated. by rewrite Ho. }
  unfold resume_one. fold w1 in Hw1, Hlt.
  destruct (iterator_next t w) as [o w1'] eqn:E. simpl in *. subst o w1.
  split.
  - intros ->. by rewrite decide_True.
  - intros Hm Hin. rewrite decide_False by done.
    destruct (py_remove_elem t _ Hin) as [l Hl]. rewrite Hl.
    eexists. split; [reflexivity|]. simpl.
    assert (l = remove_quiet t (running (sched w1'))) as ->.
    { unfold remove_quiet. by rewrite Hl. }
    split_and!; try done.
    + apply remove_quiet_filter. destruct Hw1 as [Hnd _].
      by apply NoDup_app in Hnd as (? & _).
    + by apply (mask_of_alter_eq m t
                  (set_waiting (waiting (sched w1') ++ [t])
                     (set_running (remove_quiet t (running (sched w1'))) w1'))).
    + intros u Hu.
      by apply (mask_of_alter_ne m t u
                  (set_waiting (waiting (sched w1') ++ [t])
                     (set_running (remove_quiet t (running (sched w1'))) w1'))).
Qed.

Lemma yield_parks_task_witness :
  ∃ w', resume_one 0 one_waiter = Ok w' ∧
        running (sched w') = [] ∧ waiting (sched w') = [0] ∧
        mask_of w' 0 = 2%Z.
Proof.
  destruct (yield_parks_task one_waiter 0 2) as [_ H].
  - by apply (bool_decide_unpack _).
  - reflexivity.
  - destruct H as (w' & H1 & H2 & H3 & H4 & _).
    + discriminate.
    + apply list_elem_of_In. simpl. tauto.
    + exists w'. split; [exact H1|]. split; [rewrite H2; reflexivity|].
      split; [rewrite H3; reflexivity|exact H4].
Defined.

(** X9: when the step of a task yields a mask other than 0 and the task is
    no longer in [running] (it was stopped, by itself or by a sibling, or
    the lists were cleared), line 109 raises [ValueError]: the exception
    leaves the resume loop, the pass and the loop, in the state in which
    the step ended, and the tasks after it in the snapshot are not
    resumed. *)
Theorem yield_after_removal_raises
    (w wm wp : World) (n : nat) (pre rest : list tid) (t : tid) (m : Z) :
  flag_merge w = Ok wm →
  running (sched wm) = pre ++ t :: rest →
  resume_loop pre wm = Ok wp →
  (iterator_next t wp).1 = Yield m →
  m ≠ 0%Z →
  let w1 := (iterator_next t wp).2 in
  t ∉ running (sched w1) →
  resume_one t wp = Raised ValueError w1 ∧
  pass w = Raised ValueError w1 ∧
  loop (S n) w = Raised ValueError w1.
Proof.
  intros Hm Hr Hp Ho Hne w1 Hnin.
  assert (resume_one t wp = Raised ValueError w1) as H1.
  { unfold resume_one. unfold w1 in *.
    destruct (iterator_next t wp) as [o w1']. simpl in *. subst o.
    rewrite decide_False by done.
    apply py_remove_None in Hnin. by rewrite Hnin. }
  assert (pass w = Raised ValueError w1) as H2 by by eapply pass_raised.
  split; [done|]. split; [done|].
  exact (loop_raised 0 n w w _ _ eq_refl H2).
Qed.

Lemma yield_after_removal_raises_witness :
  ∃ w1, loop 2 stopped_by_sibling = Raised ValueError w1.
Proof.
  eexists.
  refine (proj2 (proj2
    (yield_after_removal_raises stopped_by_sibling stopped_by_sibling
       (world_of (resume_loop [0] stopped_by_sibling)) 1 [0] [] 1 1
       eq_refl eq_refl eq_refl eq_refl _ _))).
  - discriminate.
  - vm_compute. intros H. apply list_elem_of_In in H. exact H.
Defined.

(** X10: when the generator of a task returns, in a state without
    duplicates, the task is deleted from both lists, every other task
    keeps its place, and nothing is reported: the pass logged the resume
    and at most wake-ups for it. *)
Theorem completion_is_silent (w : World) (t : tid) :
  wf w →
  (iterator_next t w).1 = StopIteration →
  let w1 := (iterator_next t w).2 in
  ∃ w' evs,
    resume_one t w = Ok w' ∧
    running (sched w') = filter (λ u, u ≠ t) (running (sched w1)) ∧
    waiting (sched w') = filter (λ u, u ≠ t) (waiting (sched w1)) ∧
    tasks w' = tasks w1 ∧
    log w' = log w ++ EvResume t :: evs ∧ Forall (eq EvWakeup) evs.
Proof.
  intros Hw Ho w1.
  assert (wf w1) as [Hnd _] by by apply wf_iterator_next.
  apply NoDup_app in Hnd as (Hr & _ & Hwt).
  destruct (log_iterator_next t w) as (evs & Hl & Hf). fold w1 in Hl.
  exists (remove t w1), evs. split_and!; try done.
  - unfold resume_one. unfold w1.
    destruct (iterator_next t w) as [o w1']. simpl in *. by subst o.
  - by apply remove_quiet_filter.
  - by apply remove_quiet_filter.
Qed.

Lemma completion_is_silent_witness :
  ∃ w', resume_one 0 one_done = Ok w' ∧ running (sched w') = [].
Proof.
  destruct (completion_is_silent one_done 0) as (w' & evs & H1 & H2 & _).
  - by apply (bool_decide_unpack _).
  - reflexivity.
  - exists w'. split; [exact H1|]. rewrite H2. reflexivity.
Defined.

(** ** Nothing to run *)

Lemma sleeps_app evs1 evs2 : sleeps (evs1 ++ evs2) = sleeps evs1 + sleeps evs2.
Proof.
  induction evs1 as [|ev evs1 IH]; [done|]. destruct ev; simpl; by rewrite ?IH.
Qed.

Lemma sleeps_visits l : sleeps (EvVisit <$> l) = 0.
Proof. induction l; done. Qed.

Lemma resumed_visits l : resumed (EvVisit <$> l) = [].
Proof. induction l; done. Qed.

Lemma idle_pass w :
  running (sched w) = [] →
  (∀ t, t ∈ waiting (sched w) →
        Z.land (flags (sched w)) (mask_of w t) = 0%Z) →
  ∃ w' evs, pass w = Ok w' ∧
            running (sched w') = [] ∧ waiting (sched w') = waiting (sched w) ∧
            tasks w' = tasks w ∧ flags (sched w') = 0%Z ∧
            log w' = log w ++ evs ∧ sleeps evs = 1 ∧ resumed evs = [].
Proof.
  intros Hr Hno.
  destruct (flag_merge_no_waiter w Hno) as (wm & Hm & Hrm & Hwm & Htm & Hfm).
  assert (∃ evs0, log wm = log w ++ evs0 ∧ sleeps evs0 = 0 ∧ resumed evs0 = [])
    as (evs0 & Hl0 & Hs0 & Hr0).
  { rewrite flag_merge_total in Hm. injection Hm as <-.
    destruct (decide _).
    - exists []. by rewrite app_nil_r.
    - exists (EvVisit <$> waiting (sched w)).
      by rewrite sleeps_visits, resumed_visits. }
  exists (sleep wm), (evs0 ++ [EvSleep]).
  unfold pass. rewrite Hm, Hrm, Hr. simpl.
  rewrite Hl0, sleeps_app, resumed_app, Hs0, Hr0, app_assoc.
  split_and!; try done; congruence.
Qed.

(** X11: with no runnable task and no waiting task whose mask meets the
    pending flags, the loop does nothing but sleep: [n] turns complete,
    [sleep] is called once in each, no task is resumed, and the two lists
    and the tasks are as before; pending flags that nobody waits for are
    gone after the first turn. *)
Theorem idle_loop_only_sleeps (n : nat) (w : World) :
  running (sched w) = [] →
  (∀ t, t ∈ waiting (sched w) →
        Z.land (flags (sched w)) (mask_of w t) = 0%Z) →
  ∃ w', loop n w = Ok w' ∧
        running (sched w') = [] ∧ waiting (sched w') = waiting (sched w) ∧
        tasks w' = tasks w ∧
        sleeps (events_since w w') = n ∧
        resumed (events_since w w') = [] ∧
        (0 < n → flags (sched w') = 0%Z).
Proof.
  intros Hr Hno.
  cut (∃ w' evs, loop n w = Ok w' ∧
         running (sched w') = [] ∧ waiting (sched w') = waiting (sched w) ∧
         tasks w' = tasks w ∧ log w' = log w ++ evs ∧
         sleeps evs = n ∧ resumed evs = [] ∧
         (0 < n → flags (sched w') = 0%Z)).
  { intros (w' & evs & H1 & H2 & H3 & H4 & H5 & H6 & H7 & H8).
    exists w'. rewrite (events_since_app w w' evs H5). by split_and!. }
  revert w Hr Hno. induction n as [|n IH]; intros w Hr Hno.
  - exists w, []. rewrite app_nil_r. split_and!; try done. lia.
  - destruct (idle_pass w Hr Hno)
      as (w1 & evs1 & Hp & Hr1 & Hw1 & Ht1 & Hf1 & Hl1 & Hs1 & Hres1).
    destruct (IH w1 Hr1) as (w' & evs & H1 & H2 & H3 & H4 & H5 & H6 & H7 & H8).
    { intros t _. rewrite Hf1. apply Z.land_0_l. }
    exists w', (evs1 ++ evs). simpl. rewrite Hp.
    rewrite sleeps_app, resumed_app, Hs1, Hres1, H6, H7, H5, Hl1, app_assoc.
    split_and!; try done; try congruence.
    intros _. destruct n as [|n]; [|apply H8; lia].
    simpl in H1. by injection H1 as <-.
Qed.

Lemma idle_loop_only_sleeps_witness :
  ∃ w', loop 4 three_waiting_other = Ok w' ∧
        waiting (sched w') = [0; 1; 2] ∧
        sleeps (events_since three_waiting_other w') = 4.
Proof.
  destruct (idle_loop_only_sleeps 4 three_waiting_other)
    as (w' & H1 & _ & H2 & _ & H3 & _).
  - reflexivity.
  - intros t Ht. apply list_elem_of_In in Ht. simpl in Ht.
    destruct Ht as [<-|[<-|[<-|[]]]]; reflexivity.
  - exists w'. split; [exact H1|]. split; [exact H2|exact H3].
Defined.

(** ** Handles stay valid *)

Lemma keeps_tasks_refl w w' : tasks w' = tasks w → keeps_tasks w w'.
Proof. intros H t tk Htk. exists tk. by rewrite H. Qed.

Lemma keeps_tasks_trans w1 w2 w3 :
  keeps_tasks w1 w2 → keeps_tasks w2 w3 → keeps_tasks w1 w3.
Proof.
  intros H12 H23 t tk Htk.
  destruct (H12 t tk Htk) as (tk2 & Htk2 & Hc2 & Hg2).
  destruct (H23 t tk2 Htk2) as (tk3 & Htk3 & Hc3 & Hg3).
  exists tk3. split_and!; [done|congruence|congruence].
Qed.

Lemma keeps_tasks_insert t tk tk' w :
  tasks w !! t = Some tk → cls tk' = cls tk → generator tk' = generator tk →
  keeps_tasks w (set_tasks (<[t := tk']> (tasks w)) w).
Proof.
  intros Htk Hc Hg u tku Hu. simpl. destruct (decide (u = t)) as [->|Hne].
  - exists tk'. rewrite list_lookup_insert_eq by by eapply lookup_lt_Some.
    rewrite Htk in Hu. injection Hu as <-. done.
  - exists tku. by rewrite list_lookup_insert_ne.
Qed.

Lemma keeps_tasks_restart t w : keeps_tasks w (restart t w).
Proof.
  unfold restart. destruct (tasks (remove t w) !! t) as [tk|] eqn:E.
  - apply (keeps_tasks_trans _ (remove t w)); [by apply keeps_tasks_refl|].
    intros u tku Hu.
    destruct (keeps_tasks_insert t tk (renew tk) (remove t w) E eq_refl eq_refl
                u tku Hu) as (tk' & H & ?). by exists tk'.
  - by apply keeps_tasks_refl.
Qed.

Lemma keeps_tasks_do_call c w : keeps_tasks w (do_call c w).
Proof.
  destruct c; simpl; try by apply keeps_tasks_refl.
  - apply keeps_tasks_restart.
  - intros t tk Htk. exists tk. simpl. split; [by apply lookup_app_l_Some|done].
Qed.

Lemma keeps_tasks_run_calls cs : ∀ w, keeps_tasks w (run_calls cs w).
Proof.
  induction cs as [|c cs IH]; intros w; simpl; [by apply keeps_tasks_refl|].
  eapply keeps_tasks_trans; [apply keeps_tasks_do_call|apply IH].
Qed.

Lemma keeps_tasks_iterator_next t w : keeps_tasks w (iterator_next t w).2.
Proof.
  unfold iterator_next. simpl.
  destruct (tasks w !! t) as [tk|] eqn:E; [|by apply keeps_tasks_refl].
  destruct (next_step (iterator tk)) as [st it']. simpl.
  eapply keeps_tasks_trans; [|apply keeps_tasks_run_calls].
  intros u tku Hu.
  destruct (keeps_tasks_insert t tk (set_iterator it' tk) w E eq_refl eq_refl
              u tku Hu) as (tk' & H & ?). by exists tk'.
Qed.

Lemma keeps_tasks_abort_on_error t e w : keeps_tasks w (abort_on_error t e w).
Proof.
  unfold abort_on_error. destruct (class_of _ t).
  - by apply keeps_tasks_refl.
  - eapply keeps_tasks_trans; [|apply keeps_tasks_restart].
    by apply keeps_tasks_refl.
Qed.

Lemma keeps_tasks_alter_mask m t w :
  keeps_tasks w (set_tasks (alter (set_mask m) t (tasks w)) w).
Proof.
  intros u tku Hu. simpl. destruct (decide (u = t)) as [->|Hne].
  - exists (set_mask m tku). by rewrite list_lookup_alter_eq, Hu.
  - exists tku. by rewrite list_lookup_alter_ne.
Qed.

Lemma keeps_tasks_resume_one t w : keeps_tasks w (world_of (resume_one t w)).
Proof.
  unfold resume_one. pose proof (keeps_tasks_iterator_next t w) as H1.
  destruct (iterator_next t w) as [o w1]. simpl in H1.
  eapply keeps_tasks_trans; [exact H1|].
  destruct o as [m| | |e]; simpl.
  - destruct (decide (m = 0%Z)); [by apply keeps_tasks_refl|].
    destruct (py_remove t (running (sched w1))) as [l|];
      [|by apply keeps_tasks_refl].
    simpl.
    apply (keeps_tasks_trans _
             (set_waiting (waiting (sched w1) ++ [t]) (set_running l w1)));
      [by apply keeps_tasks_refl|].
    apply (keeps_tasks_alter_mask m t
             (set_waiting (waiting (sched w1) ++ [t]) (set_running l w1))).
  - by apply keeps_tasks_refl.
  - by apply keeps_tasks_refl.
  - eapply keeps_tasks_trans; [|apply keeps_tasks_abort_on_error].
    by apply keeps_tasks_refl.
Qed.

Lemma keeps_tasks_resume_loop snapshot : ∀ w,
  keeps_tasks w (world_of (resume_loop snapshot w)).
Proof.
  induction snapshot as [|t rest IH]; intros w; simpl;
    [by apply keeps_tasks_refl|].
  pose proof (keeps_tasks_resume_one t w) as H1.
  destruct (resume_one t w) as [w'|e w']; simpl in *; [|done].
  eapply keeps_tasks_trans; [exact H1|apply IH].
Qed.

Lemma keeps_tasks_pass w : keeps_tasks w (world_of (pass w)).
Proof.
  unfold pass. destruct (flag_merge_lists w) as (wm & Hm & _ & _ & _ & Ht & _).
  rewrite Hm. apply (keeps_tasks_trans _ wm); [by apply keeps_tasks_refl|].
  destruct (running (sched wm)) eqn:E; [by apply keeps_tasks_refl|].
  apply keeps_tasks_resume_loop.
Qed.

Lemma keeps_tasks_exec ops : ∀ w, keeps_tasks w (exec ops w).
Proof.
  induction ops as [|o ops IH]; intros w; simpl; [by apply keeps_tasks_refl|].
  eapply keeps_tasks_trans; [|apply IH].
  destruct o; simpl; [apply keeps_tasks_do_call|apply keeps_tasks_pass].
Qed.

(** X12: the handle returned by [run] stays valid for ever: whatever is
    called and however the loop runs afterwards, it denotes a task of the
    class and with the generator it was submitted with; tasks are never
    freed, retyped or given another generator. *)
Theorem handle_stays_valid
    (g : generator_fn) (c : task_class) (w : World) (ops : list op) :
  let t := (run g c w).1 in
  ∃ tk, tasks (exec ops (run g c w).2) !! t = Some tk ∧
        cls tk = c ∧ generator tk = g.
Proof.
  simpl.
  destruct (keeps_tasks_exec ops (run g c w).2 (length (tasks w))
              (mkTask c g (fresh_iterator g) 0)) as (tk & H1 & H2 & H3).
  { simpl. rewrite lookup_app_r by done. by rewrite Nat.sub_diag. }
  by exists tk.
Qed.

(** ** Waiting tasks wait on something *)

Lemma masks_step w w' :
  (∀ t, mask_of w' t = mask_of w t) →
  waiting (sched w') ⊆ waiting (sched w) →
  waiting_masks_set w → waiting_masks_set w'.
Proof. intros Hm Hsub Hi t Ht. rewrite Hm. by apply Hi, Hsub. Qed.

Lemma mask_of_restart t w u : mask_of (restart t w) u = mask_of w u.
Proof.
  unfold restart. destruct (tasks (remove t w) !! t) as [tk|] eqn:E; [|done].
  unfold mask_of. simpl in *. destruct (decide (u = t)) as [->|Hne].
  - rewrite list_lookup_insert_eq by by eapply lookup_lt_Some. by rewrite E.
  - by rewrite list_lookup_insert_ne.
Qed.

Lemma mask_of_run g c w u : mask_of (run g c w).2 u = mask_of w u.
Proof.
  unfold mask_of. simpl.
  destruct (decide (u < length (tasks w))) as [Hlt|Hge].
  - by rewrite lookup_app_l.
  - rewrite (lookup_ge_None_2 (tasks w)) by lia.
    destruct (decide (u = length (tasks w))) as [->|Hne].
    + rewrite lookup_app_r by done. by rewrite Nat.sub_diag.
    + rewrite lookup_ge_None_2; [done|]. rewrite length_app. simpl. lia.
Qed.

Lemma mask_of_do_call c w u : mask_of (do_call c w) u = mask_of w u.
Proof.
  destruct c; simpl; try done.
  - apply mask_of_restart.
  - apply mask_of_run.
Qed.

Lemma waiting_restart t w : waiting (sched (restart t w)) ⊆ waiting (sched w).
Proof.
  unfold restart. destruct (tasks (remove t w) !! t); simpl;
    apply remove_quiet_subseteq.
Qed.

Lemma waiting_do_call c w : waiting (sched (do_call c w)) ⊆ waiting (sched w).
Proof.
  destruct c; simpl; try done.
  - apply remove_quiet_subseteq.
  - apply waiting_restart.
  - apply list_subseteq_nil.
Qed.

Lemma masks_run_calls cs : ∀ w,
  waiting_masks_set w → waiting_masks_set (run_calls cs w).
Proof.
  induction cs as [|c cs IH]; intros w Hi; simpl; [done|].
  apply IH. apply (masks_step w); [|apply waiting_do_call|done].
  intros t. apply mask_of_do_call.
Qed.

Lemma masks_iterator_next t w :
  waiting_masks_set w → waiting_masks_set (iterator_next t w).2.
Proof.
  intros Hi. unfold iterator_next. simpl.
  destruct (tasks w !! t) as [tk|] eqn:E; [|done].
  destruct (next_step (iterator tk)) as [st it']. simpl.
  apply masks_run_calls. apply (masks_step w); [|done|done].
  intros u. unfold mask_of. simpl. destruct (decide (u = t)) as [->|Hne].
  - rewrite list_lookup_insert_eq by by eapply lookup_lt_Some. by rewrite E.
  - by rewrite list_lookup_insert_ne.
Qed.

Lemma masks_abort_on_error t e w :
  waiting_masks_set w → waiting_masks_set (abort_on_error t e w).
Proof.
  intros Hi. unfold abort_on_error. destruct (class_of _ t); [done|].
  apply (masks_step (handle_exception t e (emit (EvAbort t) w)));
    [|apply waiting_restart|done].
  intros u. apply mask_of_restart.
Qed.

Lemma masks_remove t w : waiting_masks_set w → waiting_masks_set (remove t w).
Proof.
  apply masks_step; [done|]. simpl. apply remove_quiet_subseteq.
Qed.

Lemma masks_resume_one t w :
  waiting_masks_set w → waiting_masks_set (world_of (resume_one t w)).
Proof.
  intros Hi. unfold resume_one.
  pose proof (masks_iterator_next t w Hi) as H1.
  pose proof (iterator_next_allocated t w) as Hlt.
  destruct (iterator_next t w) as [o w1]. simpl in *.
  destruct o as [m| | |e]; simpl.
  - destruct (decide (m = 0%Z)) as [|Hm]; [done|].
    destruct (py_remove t (running (sched w1))) as [l|]; [|done]. simpl.
    set (w2 := set_waiting (waiting (sched w1) ++ [t]) (set_running l w1)).
    intros u Hu. change (u ∈ waiting (sched w1) ++ [t]) in Hu.
    destruct (decide (u = t)) as [->|Hne].
    + pose proof (mask_of_alter_eq m t w2 (Hlt ltac:(done))) as Hq.
      intros H0. apply Hm. etrans; [symmetry; exact Hq|exact H0].
    + pose proof (mask_of_alter_ne m t u w2 Hne) as Hq.
      apply elem_of_app in Hu as [Hu|Hu%list_elem_of_singleton]; [|done].
      intros H0. apply (H1 u Hu). etrans; [symmetry; exact Hq|exact H0].
  - by apply masks_remove.
  - done.
  - by apply masks_abort_on_error, masks_remove.
Qed.

Lemma masks_resume_loop snapshot : ∀ w,
  waiting_masks_set w → waiting_masks_set (world_of (resume_loop snapshot w)).
Proof.
  induction snapshot as [|t rest IH]; intros w Hi; simpl; [done|].
  pose proof (masks_resume_one t w Hi) as H1.
  destruct (resume_one t w) as [w'|e w']; simpl in *; [by apply IH|done].
Qed.

Lemma masks_pass w : waiting_masks_set w → waiting_masks_set (world_of (pass w)).
Proof.
  intros Hi. unfold pass.
  destruct (flag_merge_lists w) as (wm & Hm & _ & Hwt & _ & Hts & _).
  rewrite Hm.
  assert (waiting_masks_set wm) as Him.
  { apply (masks_step w); [| |done].
    - intros t. unfold mask_of. by rewrite Hts.
    - rewrite Hwt. intros t [_ Ht]%list_elem_of_filter. done. }
  destruct (running (sched wm)) eqn:E; [done|].
  by apply masks_resume_loop.
Qed.

Lemma masks_exec ops : ∀ w, waiting_masks_set w → waiting_masks_set (exec ops w).
Proof.
  induction ops as [|o ops IH]; intros w Hi; simpl; [done|].
  apply IH. destruct o; simpl; [|by apply masks_pass].
  apply (masks_step w); [|apply waiting_do_call|done].
  intros t. apply mask_of_do_call.
Qed.

(** X13: whatever methods were called and however the loop ran since the
    scheduler was created, every task in [waiting] has a wait mask other
    than 0: a task is only parked with the truthy mask it yielded, and the
    mask of a parked task is never written. *)
Theorem waiting_tasks_have_mask (ops : list op) (t : tid) :
  t ∈ waiting (sched (exec ops initial)) →
  mask_of (exec ops initial) t ≠ 0%Z.
Proof.
  apply (masks_exec ops initial). intros u Hu. by apply not_elem_of_nil in Hu.
Qed.

Lemma waiting_tasks_have_mask_witness :
  0 ∈ waiting (sched (exec [OpCall (CallRun wait2_gen PlainTask); OpPass] initial)) ∧
  mask_of (exec [OpCall (CallRun wait2_gen PlainTask); OpPass] initial) 0 ≠ 0%Z.
Proof.
  assert (0 ∈ waiting (sched (exec [OpCall (CallRun wait2_gen PlainTask); OpPass]
                                initial))) as H.
  { vm_compute. apply list_elem_of_In. simpl. tauto. }
  split; [exact H|].
  exact (waiting_tasks_have_mask _ 0 H).
Defined.

(** ** A task that never waits *)

Lemma next_step_yields_zero tk g :
  code (iterator tk) = g → exhausted (iterator tk) = false →
  always_yields_zero g →
  next_step (iterator tk)
  = (([], Yield 0), mkIterator g (S (pc (iterator tk))) false).
Proof.
  intros Hc He Hy. unfold next_step. rewrite He, Hc, (Hy (pc (iterator tk))).
  done.
Qed.

Lemma spin_resume_one t g u w :
  always_yields_zero g → wf w → running_on t g w → quiet_siblings t w →
  u ∈ running (sched w) →
  ∃ w', resume_one u w = Ok w' ∧
        running_on t g w' ∧ quiet_siblings t w' ∧
        (∀ x, x ≠ u → x ∈ running (sched w) → x ∈ running (sched w')).
Proof.
  intros Hy Hw (Ht & tk & Htk & Hgen & Hcode & Hex) Hq Hu.
  destruct (decide (u = t)) as [->|Hne].
  - pose proof (next_step_yields_zero tk g Hcode Hex Hy) as Hn.
    unfold resume_one. rewrite (iterator_next_plain t w tk _ _ Htk Hn).
    rewrite decide_True by done. eexists. split; [reflexivity|].
    split_and!; try done.
    + split; [done|]. eexists. simpl. split.
      * apply list_lookup_insert_eq. by eapply lookup_lt_Some.
      * done.
    + intros x tkx Hx Hl. simpl in Hl.
      rewrite list_lookup_insert_ne in Hl by done. by apply (Hq x).
  - assert (is_Some (tasks w !! u)) as [tku Htku].
    { apply lookup_lt_is_Some, (proj2 Hw). apply elem_of_app. by left. }
    destruct (Hq u tku Hne Htku) as [Hcu Hqu].
    destruct (next_step_quiet tku Hcu Hqu) as (o & it' & Hn & Ho & Hci).
    destruct (resume_one_plain u w tku o it' Hw Htku Hn Ho Hu) as
      (w' & tk' & H1 & Hx & Htk' & Hc' & Hg' & Hit & _ & Hrun & Hlog).
    exists w'. split_and!; try done.
    + split; [by apply Hrun|]. exists tk. by rewrite Hx.
    + intros x tkx Hxt Hl. destruct (decide (x = u)) as [->|Hxu].
      * rewrite Htk' in Hl. injection Hl as <-. rewrite Hg'. split; [|done].
        destruct Hit as [-> | ->]; done.
      * rewrite Hx in Hl by done. by apply (Hq x).
Qed.

Lemma spin_resume_loop t g snapshot : ∀ w,
  always_yields_zero g → wf w → running_on t g w → quiet_siblings t w →
  NoDup snapshot → snapshot ⊆ running (sched w) →
  ∃ w', resume_loop snapshot w = Ok w' ∧
        running_on t g w' ∧ quiet_siblings t w'.
Proof.
  induction snapshot as [|u rest IH]; intros w Hy Hw Hr Hq Hnd Hsub.
  - by exists w.
  - apply NoDup_cons in Hnd as [Hu Hnd].
    assert (u ∈ running (sched w)) as Hin by (apply Hsub; by left).
    destruct (spin_resume_one t g u w Hy Hw Hr Hq Hin) as
      (w1 & H1 & Hr1 & Hq1 & Hrun1).
    assert (wf w1) as Hw1.
    { pose proof (wf_resume_one u w Hw) as H. by rewrite H1 in H. }
    destruct (IH w1 Hy Hw1 Hr1 Hq1 Hnd) as (w' & H2 & Hr2 & Hq2).
    { intros x Hx. apply Hrun1; [|apply Hsub; by right]. by intros ->. }
    exists w'. simpl. by rewrite H1.
Qed.

Lemma spin_pass t g w :
  always_yields_zero g → wf w → running_on t g w → quiet_siblings t w →
  ∃ w' evs, pass w = Ok w' ∧ wf w' ∧
            running_on t g w' ∧ quiet_siblings t w' ∧
            log w' = log w ++ evs ∧ resumes_of t evs = 1.
Proof.
  intros Hy Hw Hr Hq.
  destruct (flag_merge_lists w) as (wm & Hm & Hrun & _ & _ & Hts & _).
  assert (wf wm) as Hwm.
  { pose proof (wf_flag_merge w Hw) as H. by rewrite Hm in H. }
  assert (running_on t g wm) as Hrm.
  { destruct Hr as [Hin Htk]. split; [|by rewrite Hts].
    rewrite Hrun. apply elem_of_app. by left. }
  assert (quiet_siblings t wm) as Hqm.
  { unfold quiet_siblings. by rewrite Hts. }
  assert (NoDup (running (sched wm))) as Hnd.
  { destruct Hwm as [H _]. by apply NoDup_app in H as (H & _). }
  destruct (spin_resume_loop t g (running (sched wm)) wm Hy Hwm Hrm Hqm Hnd)
    as (w' & H1 & Hr' & Hq'); [done|].
  assert (t ∈ running (sched wm)) as Hin by apply Hrm.
  assert (pass w = Ok w') as Hp.
  { unfold pass. rewrite Hm. destruct (running (sched wm)) eqn:E; [|done].
    by apply not_elem_of_nil in Hin. }
  destruct (log_pass w) as (wm' & evs & Hm' & Hl & _ & Hres).
  rewrite Hm in Hm'. injection Hm' as <-. rewrite Hp in Hl. simpl in Hl.
  exists w', evs. split_and!; try done.
  - pose proof (wf_pass w Hw) as H. by rewrite Hp in H.
  - unfold resumes_of. rewrite (Hres w' Hp), count_NoDup by done.
    by rewrite decide_True.
Qed.

Lemma resumes_of_app t evs1 evs2 :
  resumes_of t (evs1 ++ evs2) = resumes_of t evs1 + resumes_of t evs2.
Proof. unfold resumes_of. by rewrite resumed_app, filter_app, length_app. Qed.

Lemma spin_loop t g K : ∀ w,
  always_yields_zero g → wf w → running_on t g w → quiet_siblings t w →
  ∃ w' evs, loop K w = Ok w' ∧ running_on t g w' ∧
            log w' = log w ++ evs ∧ resumes_of t evs = K.
Proof.
  induction K as [|K IH]; intros w Hy Hw Hr Hq.
  - exists w, []. by rewrite app_nil_r.
  - destruct (spin_pass t g w Hy Hw Hr Hq)
      as (w1 & evs1 & H1 & Hw1 & Hr1 & Hq1 & Hl1 & Hc1).
    destruct (IH w1 Hy Hw1 Hr1 Hq1) as (w' & evs & H2 & Hr2 & Hl2 & Hc2).
    exists w', (evs1 ++ evs). simpl. rewrite H1.
    rewrite resumes_of_app, Hc1, Hc2, Hl2, Hl1, app_assoc. by split_and!.
Qed.

(** X14: a runnable task whose every step yields a falsy value is never
    parked: beside siblings that make no calls and do not exit, [K] turns
    of the loop complete, the task is resumed exactly once in each of them
    and it is still in [running] afterwards. *)
Theorem never_waiting_task_runs_every_pass
    (t : tid) (g : generator_fn) (w : World) (K : nat) :
  always_yields_zero g →
  wf w →
  running_on t g w →
  quiet_siblings t w →
  ∃ w', loop K w = Ok w' ∧
        resumes_of t (events_since w w') = K ∧
        t ∈ running (sched w').
Proof.
  intros Hy Hw Hr Hq.
  destruct (spin_loop t g K w Hy Hw Hr Hq) as (w' & evs & H1 & Hr' & Hl & Hc).
  exists w'. rewrite (events_since_app w w' evs Hl). split_and!; try done.
  apply Hr'.
Qed.

Lemma never_waiting_task_runs_every_pass_witness :
  ∃ w', loop 5 spinner_among_others = Ok w' ∧
        resumes_of 0 (events_since spinner_among_others w') = 5.
Proof.
  destruct (never_waiting_task_runs_every_pass 0 idle_gen spinner_among_others 5)
    as (w' & H1 & H2 & _).
  - intros k. reflexivity.
  - by apply (bool_decide_unpack _).
  - split; [apply list_elem_of_In; simpl; tauto|].
    eexists. split; [reflexivity|]. by split_and!.
  - intros u tk Hne Hl.
    destruct u as [|[|[|u]]]; simpl in Hl; try done;
      injection Hl as <-; split; try done; intros k; split; try done;
      by destruct k.
  - exists w'. split; [exact H1|exact H2].
Defined.

(** * Properties of the logging module *)

Lemma tuple_index_prio_text (p : Z) :
  (-8 ≤ p ≤ 7)%Z ↔ is_Some (Ulog.tuple_index Ulog.prio_text p).
Proof.
  unfold Ulog.tuple_index.
  change (Z.of_nat (length Ulog.prio_text)) with 8%Z. split.
  - intros Hp. repeat case_decide; try lia;
      apply lookup_lt_is_Some; simpl; lia.
  - intros Hs. repeat case_decide; try lia.
    + apply lookup_lt_is_Some in Hs. simpl in Hs. lia.
    + by destruct Hs.
Qed.

Lemma sendto_Returned net address payload o :
  Ulog.sendto net address payload = Ulog.Returned o →
  o = Ulog.Sendto address payload ∧
  ∃ host port, address = (Ulog.VStr host, Ulog.VInt port) ∧
               net host port = None.
Proof.
  unfold Ulog.sendto. destruct address as [[z|host] [port|s]]; try done.
  destruct (net host port) eqn:E; [done|]. intros [= <-]. eauto.
Qed.

(** X15: whenever [RSyslogHandler.write_log] sends a record, for a
    facility code of the module and a priority from [LOG_EMERG] to
    [LOG_DEBUG], the datagram goes to the address of the handler, which is
    a host name and a port number, and its text is [<N> message] and a
    line feed, where N is facility + priority; both can be read back from
    N: the priority is its remainder modulo 8 and the facility is the
    rest. *)
Theorem rsyslog_pri_decodes
    (net : Ulog.network) (address : Ulog.value * Ulog.value) (f p : Z)
    (m : string) (o : Ulog.output) :
  f ∈ Ulog.facility_codes →
  (Ulog.LOG_EMERG ≤ p ≤ Ulog.LOG_DEBUG)%Z →
  Ulog.write_log net (Ulog.RSyslogHandler address) f p m = Ulog.Returned o →
  let pri := (f + p)%Z in
  o = Ulog.Sendto address ("<" +:+ pretty pri +:+ "> " +:+ m +:+ Ulog.nl) ∧
  (∃ host port, address = (Ulog.VStr host, Ulog.VInt port)) ∧
  Z.lor f p = pri ∧ (pri mod 8 = p)%Z ∧ (pri - pri mod 8 = f)%Z.
Proof.
  intros Hf Hp Ho. simpl in Ho.
  apply sendto_Returned in Ho as (-> & host & port & -> & _).
  assert (Z.lor f p = (f + p)%Z ∧ ((f + p) mod 8 = p)%Z
          ∧ ((f + p) - (f + p) mod 8 = f)%Z) as (H1 & H2 & H3).
  { unfold Ulog.LOG_EMERG, Ulog.LOG_DEBUG in Hp.
    assert (p = 0 ∨ p = 1 ∨ p = 2 ∨ p = 3 ∨ p = 4 ∨ p = 5 ∨ p = 6 ∨ p = 7)%Z
      as Hcases by lia.
    apply list_elem_of_In in Hf. simpl in Hf.
    repeat (destruct Hf as [<-|Hf]; [
      repeat (destruct Hcases as [->|Hcases]; [by vm_compute|]);
      subst p; by vm_compute|]).
    done. }
  simpl. unfold Ulog.rsyslog_record. rewrite H1.
  split_and!; try done. by eexists _, _.
Qed.

Lemma rsyslog_pri_decodes_witness :
  Ulog.write_log Ulog.open_network
    (Ulog.RSyslogHandler (Ulog.VStr "10.0.0.1", Ulog.VInt 514))
    Ulog.LOG_USER Ulog.LOG_INFO "up"
  = Ulog.Returned
      (Ulog.Sendto (Ulog.VStr "10.0.0.1", Ulog.VInt 514)
         ("<14> up" +:+ Ulog.nl)) ∧
  ((8 + 6) mod 8 = 6)%Z.
Proof.
  destruct (rsyslog_pri_decodes Ulog.open_network
              (Ulog.VStr "10.0.0.1", Ulog.VInt 514) Ulog.LOG_USER Ulog.LOG_INFO
              "up"
              (Ulog.Sendto (Ulog.VStr "10.0.0.1", Ulog.VInt 514)
                 ("<14> up" +:+ Ulog.nl))) as (_ & _ & _ & H & _).
  - apply list_elem_of_In. simpl. tauto.
  - unfold Ulog.LOG_EMERG, Ulog.LOG_INFO, Ulog.LOG_DEBUG. lia.
  - reflexivity.
  - split; [reflexivity|exact H].
Defined.

(** The loop of [Logger.log] when no handler raises. *)
Lemma log_loop_all net hs f p m : ∀ out os,
  Forall2 (λ h o, Ulog.write_log net h f p m = Ulog.Returned o) hs os →
  Ulog.log_loop net hs f p m out = (Ulog.Returned (), out ++ os).
Proof.
  induction hs as [|h hs IH]; intros out os Hos.
  - apply Forall2_nil_inv_l in Hos as ->. by rewrite app_nil_r.
  - apply Forall2_cons_inv_l in Hos as (o & os' & Ho & Hos & ->).
    simpl. rewrite Ho, (IH _ os' Hos). by rewrite <- app_assoc.
Qed.

(** The loop of [Logger.log] up to the first handler that raises. *)
Lemma log_loop_fails net pre h post f p m e : ∀ out os,
  Forall2 (λ h o, Ulog.write_log net h f p m = Ulog.Returned o) pre os →
  Ulog.write_log net h f p m = Ulog.Failed e →
  Ulog.log_loop net (pre ++ h :: post) f p m out = (Ulog.Failed e, out ++ os).
Proof.
  induction pre as [|h0 pre IH]; intros out os Hos He.
  - apply Forall2_nil_inv_l in Hos as ->. simpl. by rewrite He, app_nil_r.
  - apply Forall2_cons_inv_l in Hos as (o & os' & Ho & Hos & ->).
    simpl. rewrite Ho, (IH _ os' Hos He). by rewrite <- app_assoc.
Qed.

Lemma write_log_serves net h f p m :
  (-8 ≤ p ≤ 7)%Z → Ulog.serves net h →
  ∃ o, Ulog.write_log net h f p m = Ulog.Returned o.
Proof.
  intros Hp Hs. destruct h as [|[[z|host] [port|s]]]; simpl in *; try done.
  - apply tuple_index_prio_text in Hp as [txt ->]. by eexists.
  - rewrite Hs. by eexists.
Qed.

Lemma write_log_all net hs f p m :
  (-8 ≤ p ≤ 7)%Z → Forall (Ulog.serves net) hs →
  ∃ os, Forall2 (λ h o, Ulog.write_log net h f p m = Ulog.Returned o) hs os.
Proof.
  intros Hp. induction 1 as [|h hs Hh _ [os IH]]; [by exists []|].
  destruct (write_log_serves net h f p m Hp Hh) as [o Ho].
  exists (o :: os). by constructor.
Qed.

(** X16: with a priority from -8 to 7, [Logger.log] hands the record to
    the handlers in the order of [handlers], once each.  When every
    handler can take it (the console always can; a remote can when its
    address is a host name and a port number that the network takes), all
    of them get it and the call returns.  Otherwise the call raises what
    the first handler that cannot take it raises: the handlers before it
    have got the record, the handlers after it get nothing.  The list of
    handlers is not changed. *)
Theorem log_reaches_every_handler
    (net : Ulog.network) (self : Ulog.Logger) (p : Z) (m : string)
    (st : Ulog.State) :
  (-8 ≤ p ≤ 7)%Z →
  (Forall (Ulog.serves net) (Ulog.handlers st) →
   ∃ os, Ulog.log net self p m st
         = (Ulog.Returned (),
            Ulog.mkState (Ulog.handlers st) (Ulog.outputs st ++ os)) ∧
         Forall2 (λ h o, Ulog.write_log net h (Ulog.facility self) p m
                         = Ulog.Returned o)
           (Ulog.handlers st) os) ∧
  (∀ pre h post e,
     Ulog.handlers st = pre ++ h :: post →
     Forall (Ulog.serves net) pre →
     Ulog.write_log net h (Ulog.facility self) p m = Ulog.Failed e →
     ∃ os, Ulog.log net self p m st
           = (Ulog.Failed e,
              Ulog.mkState (Ulog.handlers st) (Ulog.outputs st ++ os)) ∧
           Forall2 (λ h o, Ulog.write_log net h (Ulog.facility self) p m
                           = Ulog.Returned o)
             pre os).
Proof.
  intros Hp. split.
  - intros Hall.
    destruct (write_log_all net _ (Ulog.facility self) p m Hp Hall) as [os Hos].
    exists os. split; [|done]. unfold Ulog.log.
    by rewrite (log_loop_all _ _ _ _ _ _ os Hos).
  - intros pre h post e Hsplit Hpre He.
    destruct (write_log_all net _ (Ulog.facility self) p m Hp Hpre) as [os Hos].
    exists os. split; [|done]. unfold Ulog.log. rewrite Hsplit.
    by rewrite (log_loop_fails _ _ _ _ _ _ _ _ _ os Hos He).
Qed.

Lemma log_reaches_every_handler_witness :
  (∃ os, Ulog.log Ulog.open_network Ulog.default_logger 6 "up" Ulog.initial
         = (Ulog.Returned (), Ulog.mkState [Ulog.DefaultHandler] ([] ++ os))) ∧
  (∃ os, Ulog.log Ulog.open_network Ulog.default_logger 6 "up"
           (Ulog.mkState
              [Ulog.DefaultHandler;
               Ulog.RSyslogHandler (Ulog.VInt 514, Ulog.VInt 514)] [])
         = (Ulog.Failed Ulog.TypeError,
            Ulog.mkState
              [Ulog.DefaultHandler;
               Ulog.RSyslogHandler (Ulog.VInt 514, Ulog.VInt 514)]
              ([] ++ os))).
Proof.
  split.
  - destruct (log_reaches_every_handler Ulog.open_network Ulog.default_logger
                6 "up" Ulog.initial) as [H _]; [lia|].
    destruct H as (os & H1 & _); [by repeat constructor|].
    exists os. exact H1.
  - destruct (log_reaches_every_handler Ulog.open_network Ulog.default_logger
                6 "up"
                (Ulog.mkState
                   [Ulog.DefaultHandler;
                    Ulog.RSyslogHandler (Ulog.VInt 514, Ulog.VInt 514)] []))
      as [_ H]; [lia|].
    destruct (H [Ulog.DefaultHandler]
                (Ulog.RSyslogHandler (Ulog.VInt 514, Ulog.VInt 514)) []
                Ulog.TypeError eq_refl) as (os & H1 & _).
    + by repeat constructor.
    + reflexivity.
    + exists os. exact H1.
Defined.

Lemma handlers_add_remote args st :
  ∃ hs, Ulog.handlers (Ulog.add_remote args st).2 = Ulog.handlers st ++ hs ∧
        Ulog.outputs (Ulog.add_remote args st).2 = Ulog.outputs st.
Proof.
  destruct args as [|a [|b [|c [|d args]]]]; simpl;
    try (exists []; by rewrite app_nil_r); by eexists.
Qed.

Lemma handlers_add_remotes calls : ∀ st,
  ∃ hs, Ulog.handlers (Ulog.add_remotes calls st) = Ulog.handlers st ++ hs ∧
        Ulog.outputs (Ulog.add_remotes calls st) = Ulog.outputs st.
Proof.
  induction calls as [|args calls IH]; intros st; simpl.
  - exists []. by rewrite app_nil_r.
  - destruct (handlers_add_remote args st) as (hs1 & H1 & O1).
    destruct (IH (Ulog.add_remote args st).2) as (hs2 & H2 & O2).
    exists (hs1 ++ hs2). rewrite H2, H1, O2, O1. by rewrite app_assoc.
Qed.

(** X17: a priority below -8 or above 7 makes the default handler raise
    [IndexError] before it writes; as the default handler comes first in
    [handlers] and [add_remote] only appends, such a call of [Logger.log],
    after any number of [add_remote] calls, raises and writes nothing, on
    the console or to a remote, whatever the network. *)
Theorem log_bad_priority_writes_nothing
    (net : Ulog.network) (calls : list (list Ulog.value))
    (self : Ulog.Logger) (p : Z) (m : string) :
  (p < -8 ∨ 7 < p)%Z →
  let st := Ulog.add_remotes calls Ulog.initial in
  Ulog.log net self p m st = (Ulog.Failed Ulog.IndexError, st) ∧
  Ulog.outputs st = [].
Proof.
  intros Hp st.
  destruct (handlers_add_remotes calls Ulog.initial) as (hs & Hh & Ho).
  fold st in Hh, Ho. simpl in Hh, Ho.
  assert (Ulog.tuple_index Ulog.prio_text p = None) as Hnone.
  { destruct (Ulog.tuple_index Ulog.prio_text p) eqn:E; [|done].
    assert (-8 ≤ p ≤ 7)%Z; [|lia].
    apply tuple_index_prio_text. by rewrite E. }
  split; [|done]. unfold Ulog.log. rewrite Hh. simpl. rewrite Hnone.
  destruct st. simpl in *. by subst.
Qed.

Lemma log_bad_priority_writes_nothing_witness :
  Ulog.log Ulog.open_network Ulog.default_logger 8 "x"
    (Ulog.add_remotes [[Ulog.VStr "h"; Ulog.VStr "10.0.0.1"]] Ulog.initial)
  = (Ulog.Failed Ulog.IndexError,
     Ulog.add_remotes [[Ulog.VStr "h"; Ulog.VStr "10.0.0.1"]] Ulog.initial).
Proof.
  refine (proj1 (log_bad_priority_writes_nothing Ulog.open_network
                   [[Ulog.VStr "h"; Ulog.VStr "10.0.0.1"]]
                   Ulog.default_logger 8 "x" _)).
  lia.
Defined.

(** X18: [Logger.warn] and [Logger.error] read the names [LOG_WARN] and
    [LOG_ERROR], which the module does not define (it defines
    [LOG_WARNING] and [LOG_ERR]): whatever the logger, the message, the
    handlers and the network, they raise [NameError] and write nothing.
    [Logger.debug] and [Logger.info] are [Logger.log] at the priorities 7
    and 6; when every handler can take the record, they return and write
    one record for each handler. *)
Theorem warn_and_error_raise
    (net : Ulog.network) (self : Ulog.Logger) (m : string) (st : Ulog.State) :
  Ulog.warn net self m st = (Ulog.Failed (Ulog.NameError "LOG_WARN"), st) ∧
  Ulog.error_ net self m st = (Ulog.Failed (Ulog.NameError "LOG_ERROR"), st) ∧
  Ulog.debug net self m st = Ulog.log net self 7 m st ∧
  Ulog.info net self m st = Ulog.log net self 6 m st ∧
  (Forall (Ulog.serves net) (Ulog.handlers st) →
   (Ulog.debug net self m st).1 = Ulog.Returned () ∧
   (Ulog.info net self m st).1 = Ulog.Returned () ∧
   length (Ulog.outputs (Ulog.debug net self m st).2)
   = length (Ulog.outputs st) + length (Ulog.handlers st) ∧
   length (Ulog.outputs (Ulog.info net self m st).2)
   = length (Ulog.outputs st) + length (Ulog.handlers st)).
Proof.
  assert (Ulog.debug net self m st = Ulog.log net self 7 m st) as Hd
    by reflexivity.
  assert (Ulog.info net self m st = Ulog.log net self 6 m st) as Hi
    by reflexivity.
  split_and!; try reflexivity.
  intros Hall. rewrite Hd, Hi. unfold Ulog.log.
  destruct (write_log_all net _ (Ulog.facility self) 7 m ltac:(lia) Hall)
    as [os7 Hos7].
  destruct (write_log_all net _ (Ulog.facility self) 6 m ltac:(lia) Hall)
    as [os6 Hos6].
  rewrite (log_loop_all _ _ _ _ _ _ os7 Hos7).
  rewrite (log_loop_all _ _ _ _ _ _ os6 Hos6). simpl.
  rewrite !length_app, <- (Forall2_length _ _ _ Hos7),
    <- (Forall2_length _ _ _ Hos6). done.
Qed.

Lemma warn_and_error_raise_witness :
  Ulog.warn Ulog.open_network Ulog.default_logger "w" Ulog.initial
  = (Ulog.Failed (Ulog.NameError "LOG_WARN"), Ulog.initial) ∧
  (Ulog.debug Ulog.open_network Ulog.default_logger "d" Ulog.initial).1
  = Ulog.Returned ().
Proof.
  destruct (warn_and_error_raise Ulog.open_network Ulog.default_logger "w"
              Ulog.initial) as (H1 & _).
  destruct (warn_and_error_raise Ulog.open_network Ulog.default_logger "d"
              Ulog.initial) as (_ & _ & _ & _ & H2).
  destruct H2 as (H3 & _); [by repeat constructor|].
  split; [exact H1|exact H3].
Defined.

Lemma write_log_no_ill_typed net h f p m o a b payload :
  Ulog.write_log net h f p m = Ulog.Returned o →
  o ≠ Ulog.Sendto (Ulog.VInt a, b) payload.
Proof.
  destruct h as [|address]; simpl.
  - destruct (Ulog.tuple_index Ulog.prio_text p); [|done]. by intros [= <-].
  - intros (-> & host & port & -> & _)%sendto_Returned. done.
Qed.

(** X19: [add_remote] has a first parameter [self] although it is a
    function of the module.  Called as the configuration written by
    [wipy-ftp.py] calls it, with an address and an integer port, it
    registers a remote whose host is that port and whose port is 514.
    From then on every [Logger.log] with a priority from -8 to 7 hands the
    record to the handlers that were there before and then raises
    [TypeError] at the new remote: no datagram is ever sent to it. *)
Theorem configured_remote_breaks_logging
    (net : Ulog.network) (self : Ulog.Logger) (ip : Ulog.value) (port p : Z)
    (m : string) (st : Ulog.State) :
  (-8 ≤ p ≤ 7)%Z →
  Forall (Ulog.serves net) (Ulog.handlers st) →
  let st1 := (Ulog.add_remote [ip; Ulog.VInt port] st).2 in
  (Ulog.add_remote [ip; Ulog.VInt port] st).1 = Ulog.Returned () ∧
  Ulog.handlers st1
  = Ulog.handlers st
    ++ [Ulog.RSyslogHandler (Ulog.VInt port, Ulog.VInt 514)] ∧
  ∃ os, Ulog.log net self p m st1
        = (Ulog.Failed Ulog.TypeError,
           Ulog.mkState (Ulog.handlers st1) (Ulog.outputs st ++ os)) ∧
        Forall2 (λ h o, Ulog.write_log net h (Ulog.facility self) p m
                        = Ulog.Returned o)
          (Ulog.handlers st) os ∧
        ∀ payload,
          Ulog.Sendto (Ulog.VInt port, Ulog.VInt 514) payload ∉ os.
Proof.
  intros Hp Hall. simpl. split; [done|]. split; [done|].
  destruct (write_log_all net _ (Ulog.facility self) p m Hp Hall) as [os Hos].
  exists os. split_and!; [|done|].
  - unfold Ulog.log. simpl.
    by rewrite (log_loop_fails net _
                  (Ulog.RSyslogHandler (Ulog.VInt port, Ulog.VInt 514)) []
                  _ _ _ Ulog.TypeError _ os Hos).
  - intros payload Hin.
    apply list_elem_of_lookup in Hin as [i Hi].
    destruct (Forall2_lookup_r _ _ _ _ _ Hos Hi) as (h & _ & Hh).
    by apply write_log_no_ill_typed with (a := port) (b := Ulog.VInt 514)
                                         (payload := payload) in Hh.
Qed.

Lemma configured_remote_breaks_logging_witness :
  ∃ os, Ulog.log Ulog.open_network Ulog.default_logger 6 "up"
          (Ulog.add_remote [Ulog.VStr "10.0.0.1"; Ulog.VInt 514] Ulog.initial).2
        = (Ulog.Failed Ulog.TypeError,
           Ulog.mkState
             [Ulog.DefaultHandler;
              Ulog.RSyslogHandler (Ulog.VInt 514, Ulog.VInt 514)]
             ([] ++ os)).
Proof.
  destruct (configured_remote_breaks_logging Ulog.open_network
              Ulog.default_logger (Ulog.VStr "10.0.0.1") 514 6 "up"
              Ulog.initial) as (_ & _ & os & H & _).
  - lia.
  - by repeat constructor.
  - exists os. exact H.
Defined.
